(** * Overland-flow use case: the simulation loop of [overland_flow.ipynb]

    The notebook's "Step 3" cell drives Landlab's [OverlandFlow] component:
    an outer [for] loop over reporting time slices, an inner [while] loop of
    adaptive sub-steps, a rainfall switch, and two lists that collect the
    discharge at the outlet node.

    Conventions of the embedding.
    - Python floats ([elapsed_time], [dt], the rainfall intensity, the
      discharge values) are rationals [Q]: rounding and the non-finite values
      are not represented.  Python ints ([time_slice], [model_run_time],
      [time_step], [storm_duration]) are [Z].
    - The Landlab component is not part of the repository; the driver is
      written over the record [Landlab], which lists the methods the
      notebook calls.
    - The [while] loop takes a fuel argument, the number of sub-steps each
      execution of the loop may take; an outcome always carries the loop
      state reached, so invariants are stated for every outcome and
      termination is stated as "enough fuel finishes the run". *)

From Stdlib Require Import ZArith QArith Qround Qabs List Sorted Permutation Bool Lia Lqa.
From Stdlib Require String Ascii DecimalString DecimalZ.
Import ListNotations.

(** ** Comparison of floats *)

Definition Qltb (x y : Q) : bool := negb (Qle_bool y x).

Lemma Qltb_true (x y : Q) : Qltb x y = true <-> x < y.
Proof.
  unfold Qltb. rewrite negb_true_iff. split; intro H.
  - apply Qnot_le_lt. intro A. apply Qle_bool_iff in A. congruence.
  - destruct (Qle_bool y x) eqn:E; [|reflexivity].
    apply Qle_bool_iff in E. exfalso. exact (Qlt_not_le _ _ H E).
Qed.

Lemma Qltb_false (x y : Q) : Qltb x y = false <-> y <= x.
Proof.
  unfold Qltb. rewrite negb_false_iff. apply Qle_bool_iff.
Qed.

(** ** Python's [range(start, stop, step)] *)

Definition range_length (start stop step : Z) : Z :=
  if (0 <? step)%Z then
    if (start <? stop)%Z then ((stop - start - 1) / step + 1)%Z else 0%Z
  else
    if (stop <? start)%Z then ((start - stop - 1) / (- step) + 1)%Z else 0%Z.

(** [None] stands for the [ValueError] raised when [step] is zero. *)
Definition range (start stop step : Z) : option (list Z) :=
  if (step =? 0)%Z then None
  else Some (map (fun i => (start + Z.of_nat i * step)%Z)
                 (seq 0 (Z.to_nat (range_length start stop step)))).

(** ** The Landlab component as the notebook sees it *)

Module OverlandFlow.

(** An [OverlandFlow] instance: the two attributes the notebook assigns
    ([dt], [rainfall_intensity]) and everything else the instance and its
    grid hold ([fields]). *)
Record t (F : Type) : Type := Build {
  fields : F;
  dt : Q;
  rainfall_intensity : Q
}.

Arguments Build {F} _ _ _.
Arguments fields {F} _.
Arguments dt {F} _.
Arguments rainfall_intensity {F} _.

Definition set_dt {F : Type} (v : Q) (c : t F) : t F :=
  Build (fields c) v (rainfall_intensity c).

Definition set_rainfall_intensity {F : Type} (v : Q) (c : t F) : t F :=
  Build (fields c) (dt c) v.

End OverlandFlow.

(** The library calls of the cell.  [new] is the constructor
    [OverlandFlow(model_grid, steep_slopes=...)], [None] when it raises.
    [calc_time_step] returns a value and may update the instance;
    [overland_flow] is the method [overland_flow.overland_flow()];
    [discharge_mapper] is
    [discharge_mapper(at_link['surface_water__discharge'], convert_to_volume=True)],
    an array with one entry per node. *)
Record Landlab : Type := {
  Grid : Type;
  Fields : Type;
  new : Grid -> bool -> option (OverlandFlow.t Fields);
  calc_time_step : OverlandFlow.t Fields -> Q * OverlandFlow.t Fields;
  overland_flow : OverlandFlow.t Fields -> OverlandFlow.t Fields;
  discharge_mapper : OverlandFlow.t Fields -> list Q
}.

(** ** Run parameters and loop state *)

Record Params : Type := {
  model_run_time : Z;
  storm_duration : Z;
  time_step : Z;
  rainfall_intensity : Q;
  outlet : nat
}.

(** The values of the notebook; the outlet is node 26267. *)
Definition notebook_params : Params :=
  {| model_run_time := 20 * 60;
     storm_duration := 10 * 60;
     time_step := 30;
     rainfall_intensity := 59.2 / (100 * 3600);
     outlet := Z.to_nat 26267 |}.

(** One executed sub-step, kept for the statements only: the elapsed time
    when it started, the [dt] added after it, and the rainfall intensity the
    component was given. *)
Record SubStep : Type := {
  start_time : Q;
  step_dt : Q;
  intensity : Q
}.

Definition end_time (e : SubStep) : Q := start_time e + step_dt e.

(** One saved figure [flow_<time_slice>.png]: the slice, the elapsed time
    when it was drawn and the two series that were plotted. *)
Record Figure : Type := {
  fig_slice : Z;
  fig_elapsed : Q;
  fig_times : list Q;
  fig_discharge : list Q
}.

Inductive exn : Type :=
| IndexError
| ValueError.

(** The two attribute assignments that precede [overland_flow()]:
    [overland_flow.dt = overland_flow.calc_time_step()] and
    [overland_flow.rainfall_intensity = r]. *)
Definition assign (lib : Landlab) (c : OverlandFlow.t (Fields lib)) (r : Q)
  : OverlandFlow.t (Fields lib) :=
  let (v, c1) := calc_time_step lib c in
  OverlandFlow.set_rainfall_intensity r (OverlandFlow.set_dt v c1).

Section Driver.

Variable lib : Landlab.
Variable p : Params.

Local Abbreviation Component := (OverlandFlow.t (Fields lib)).

Record Loop : Type := {
  component : Component;
  elapsed_time : Q;
  outlet_discharge : list Q;
  outlet_times : list Q;
  printed : list Z;
  figures : list Figure;
  trace : list SubStep
}.

Inductive outcome : Type :=
| Finished (s : Loop)
| Raised (e : exn) (s : Loop)
| OutOfFuel (s : Loop).

Definition state_of (o : outcome) : Loop :=
  match o with
  | Finished s => s
  | Raised _ s => s
  | OutOfFuel s => s
  end.

(** The rainfall branch: a function of the elapsed time and the parameters. *)
Definition intensity_at (t : Q) : Q :=
  if Qltb t (inject_Z (storm_duration p)) then rainfall_intensity p else 0.

(** The instance on which [overland_flow()] is called: [dt] assigned from
    [calc_time_step()], then [rainfall_intensity] from the branch. *)
Definition prepared (s : Loop) : Component :=
  assign lib (component s) (intensity_at (elapsed_time s)).

(** Body of the [while] loop. *)
Definition sub_step (s : Loop) : outcome :=
  let c := overland_flow lib (prepared s) in
  let t := elapsed_time s + OverlandFlow.dt c in
  let discharge := discharge_mapper lib c in
  let tr := trace s ++ [ {| start_time := elapsed_time s;
                            step_dt := OverlandFlow.dt c;
                            intensity := OverlandFlow.rainfall_intensity (prepared s) |} ] in
  match nth_error discharge (outlet p) with
  | None =>
      Raised IndexError
        {| component := c; elapsed_time := t;
           outlet_discharge := outlet_discharge s;
           outlet_times := outlet_times s;
           printed := printed s; figures := figures s; trace := tr |}
  | Some q =>
      Finished
        {| component := c; elapsed_time := t;
           outlet_discharge := outlet_discharge s ++ [q];
           outlet_times := outlet_times s ++ [t];
           printed := printed s; figures := figures s; trace := tr |}
  end.

(** [while elapsed_time < time_slice: ...] *)
Fixpoint while_loop (fuel : nat) (time_slice : Z) (s : Loop) : outcome :=
  if Qltb (elapsed_time s) (inject_Z time_slice) then
    match fuel with
    | O => OutOfFuel s
    | S fuel' =>
        match sub_step s with
        | Finished s' => while_loop fuel' time_slice s'
        | o => o
        end
    end
  else Finished s.

Definition print (time_slice : Z) (s : Loop) : Loop :=
  {| component := component s; elapsed_time := elapsed_time s;
     outlet_discharge := outlet_discharge s; outlet_times := outlet_times s;
     printed := printed s ++ [time_slice];
     figures := figures s; trace := trace s |}.

Definition savefig (time_slice : Z) (s : Loop) : Loop :=
  {| component := component s; elapsed_time := elapsed_time s;
     outlet_discharge := outlet_discharge s; outlet_times := outlet_times s;
     printed := printed s;
     figures := figures s ++ [ {| fig_slice := time_slice;
                                  fig_elapsed := elapsed_time s;
                                  fig_times := outlet_times s;
                                  fig_discharge := outlet_discharge s |} ];
     trace := trace s |}.

(** Body of the [for] loop: print, sub-step up to the slice, plot. *)
Definition slice_body (fuel : nat) (time_slice : Z) (s : Loop) : outcome :=
  match while_loop fuel time_slice (print time_slice s) with
  | Finished s' =>
      Finished (if (0 <? time_slice)%Z then savefig time_slice s' else s')
  | o => o
  end.

Fixpoint for_loop (fuel : nat) (slices : list Z) (s : Loop) : outcome :=
  match slices with
  | [] => Finished s
  | time_slice :: rest =>
      match slice_body fuel time_slice s with
      | Finished s' => for_loop fuel rest s'
      | o => o
      end
  end.

Definition initial (c : Component) : Loop :=
  {| component := c; elapsed_time := 0;
     outlet_discharge := []; outlet_times := [];
     printed := []; figures := []; trace := [] |}.

(** The loop, from an instantiated component. *)
Definition run (fuel : nat) (c : Component) : outcome :=
  match range 0 (model_run_time p + time_step p) (time_step p) with
  | None => Raised ValueError (initial c)
  | Some slices => for_loop fuel slices (initial c)
  end.

(** The whole cell: [None] when the constructor raises. *)
Definition simulate (fuel : nat) (g : Grid lib) : option outcome :=
  match new lib g true with
  | None => None
  | Some c => Some (run fuel c)
  end.

End Driver.

Arguments component {lib} _.
Arguments elapsed_time {lib} _.
Arguments outlet_discharge {lib} _.
Arguments outlet_times {lib} _.
Arguments printed {lib} _.
Arguments figures {lib} _.
Arguments trace {lib} _.
Arguments Finished {lib} _.
Arguments Raised {lib} _ _.
Arguments OutOfFuel {lib} _.
Arguments state_of {lib} _.
Arguments print {lib} _ _.
Arguments savefig {lib} _ _.
Arguments initial {lib} _.

(** ** A component with a constant time step

    Used to run the loop on concrete inputs: [calc_time_step] always
    returns [h], [overland_flow()] leaves the instance alone, and the mapped
    discharge array has [nodes] entries, all equal to the rainfall intensity
    the instance currently holds. *)
Definition steady (nodes : nat) (h : Q) : Landlab :=
  {| Grid := unit;
     Fields := unit;
     new := fun _ _ => Some (OverlandFlow.Build tt 0 0);
     calc_time_step := fun c => (h, c);
     overland_flow := fun c => c;
     discharge_mapper := fun c => repeat (OverlandFlow.rainfall_intensity c) nodes |}.

Definition steady0 : OverlandFlow.t unit := OverlandFlow.Build tt 0 0.

(** ** Conditions on the component *)

(** The [dt] the notebook reads after a sub-step, from an instance [c] given
    rainfall intensity [r]. *)
Definition next_dt (lib : Landlab) (c : OverlandFlow.t (Fields lib)) (r : Q) : Q :=
  OverlandFlow.dt (overland_flow lib (assign lib c r)).

(** The [dt] read after [overland_flow()] is never negative. *)
Definition dt_nonneg (lib : Landlab) : Prop :=
  forall c r, 0 <= next_dt lib c r.

(** The [dt] read after [overland_flow()] is at least [dmin]. *)
Definition dt_at_least (lib : Landlab) (dmin : Q) : Prop :=
  forall c r, dmin <= next_dt lib c r.

(** The mapped discharge array has an entry at the outlet index. *)
Definition outlet_mapped (lib : Landlab) (p : Params) : Prop :=
  forall c, (outlet p < length (discharge_mapper lib c))%nat.

(** ** Lists that grow at the end *)

Lemma StronglySorted_snoc {A : Type} (R : A -> A -> Prop) (l : list A) (x : A) :
  StronglySorted R l -> Forall (fun y => R y x) l -> StronglySorted R (l ++ [x]).
Proof.
  induction l as [|a l IH]; simpl; intros Hs Hf.
  - constructor; constructor.
  - inversion Hs; subst. inversion Hf; subst.
    constructor; [now apply IH|].
    apply Forall_app. split; [assumption| now constructor].
Qed.

Lemma Forall_snoc {A : Type} (P : A -> Prop) (l : list A) (x : A) :
  Forall P l -> P x -> Forall P (l ++ [x]).
Proof.
  intros Hl Hx. apply Forall_app. split; [assumption | now constructor].
Qed.

Lemma Forall_weaken {A : Type} (P Q : A -> Prop) (l : list A) :
  (forall x, P x -> Q x) -> Forall P l -> Forall Q l.
Proof.
  intros H Hl. eapply Forall_impl; eauto.
Qed.

(** ** Stepping lemmas *)

Section Stepping.

Variable lib : Landlab.
Variable p : Params.


Lemma sub_step_mapped (s : Loop lib) :
  outlet_mapped lib p -> exists s', sub_step lib p s = Finished s'.
Proof.
  intro Hm. unfold sub_step.
  destruct (nth_error _ _) eqn:E; [eexists; reflexivity|].
  apply nth_error_None in E. specialize (Hm (overland_flow lib (prepared lib p s))). lia.
Qed.

Lemma sub_step_elapsed (s : Loop lib) :
  elapsed_time (state_of (sub_step lib p s))
  = elapsed_time s + OverlandFlow.dt (overland_flow lib (prepared lib p s)).
Proof.
  unfold sub_step. destruct (nth_error _ _); reflexivity.
Qed.

Lemma sub_step_trace (s : Loop lib) :
  trace (state_of (sub_step lib p s))
  = trace s ++ [ {| start_time := elapsed_time s;
                    step_dt := OverlandFlow.dt (overland_flow lib (prepared lib p s));
                    intensity := intensity_at p (elapsed_time s) |} ].
Proof.
  unfold sub_step, prepared, assign.
  destruct (calc_time_step lib (component s)) as [v c1].
  destruct (nth_error _ _); reflexivity.
Qed.

Lemma sub_step_frame (s : Loop lib) :
  printed (state_of (sub_step lib p s)) = printed s /\
  figures (state_of (sub_step lib p s)) = figures s.
Proof.
  unfold sub_step. destruct (nth_error _ _); split; reflexivity.
Qed.

(** *** Invariants of the loops *)

Section Invariant.

(** An invariant may depend on the slice being worked on; [order] is what
    it needs to know about two successive slices. *)
Variable order : Z -> Z -> Prop.
Variable P : Z -> Loop lib -> Prop.

Hypothesis P_sub_step : forall ts s,
  P ts s -> elapsed_time s < inject_Z ts -> P ts (state_of (sub_step lib p s)).

Lemma while_loop_inv (fuel : nat) (ts : Z) :
  forall s, P ts s -> P ts (state_of (while_loop lib p fuel ts s)).
Proof.
  induction fuel as [|fuel IH]; intros s Hs; simpl.
  - destruct (Qltb _ _); exact Hs.
  - destruct (Qltb _ _) eqn:G; [|exact Hs].
    apply Qltb_true in G.
    pose proof (P_sub_step ts s Hs G) as H1.
    destruct (sub_step lib p s) as [s1|e s1|s1]; simpl in *; auto.
Qed.

Lemma while_loop_exit (fuel : nat) (ts : Z) :
  forall s s', while_loop lib p fuel ts s = Finished s' ->
               inject_Z ts <= elapsed_time s'.
Proof.
  induction fuel as [|fuel IH]; intros s s'; simpl.
  - destruct (Qltb _ _) eqn:G; [discriminate|].
    intro E; injection E as <-. now apply Qltb_false.
  - destruct (Qltb _ _) eqn:G.
    + destruct (sub_step lib p s) as [s1|e s1|s1]; try discriminate. apply IH.
    + intro E; injection E as <-. now apply Qltb_false.
Qed.

Hypothesis P_print : forall b ts s, order b ts -> P b s -> P ts (print ts s).

Hypothesis P_savefig : forall ts s,
  P ts s -> inject_Z ts <= elapsed_time s -> (0 < ts)%Z -> P ts (savefig ts s).

Lemma slice_body_inv (fuel : nat) (b ts : Z) (s : Loop lib) :
  order b ts -> P b s -> P ts (state_of (slice_body lib p fuel ts s)).
Proof.
  intros Hb Hs. unfold slice_body.
  pose proof (while_loop_inv fuel ts _ (P_print b ts s Hb Hs)) as H1.
  pose proof (while_loop_exit fuel ts (print ts s)) as H2.
  destruct (while_loop lib p fuel ts (print ts s)) as [s1|e s1|s1]; simpl in *; auto.
  destruct (0 <? ts)%Z eqn:Z0; [|exact H1].
  apply P_savefig; auto. now apply Z.ltb_lt.
Qed.

(** Successive slices are related by [order], starting from [b]. *)
Fixpoint ascending (b : Z) (slices : list Z) : Prop :=
  match slices with
  | [] => True
  | ts :: rest => order b ts /\ ascending ts rest
  end.

Lemma for_loop_inv (fuel : nat) (slices : list Z) :
  forall b s, ascending b slices -> P b s ->
              exists b', P b' (state_of (for_loop lib p fuel slices s)).
Proof.
  induction slices as [|ts rest IH]; intros b s Ha Hs; simpl.
  - now exists b.
  - destruct Ha as [Hb Ha].
    pose proof (slice_body_inv fuel b ts s Hb Hs) as H1.
    destruct (slice_body lib p fuel ts s) as [s1|e s1|s1]; simpl in *; eauto.
Qed.

End Invariant.

End Stepping.

(** ** Invariants of a whole run *)

Section RunInvariant.

Variable lib : Landlab.
Variable p : Params.
Variable I : Loop lib -> Prop.

Hypothesis I_sub_step : forall s, I s -> I (state_of (sub_step lib p s)).
Hypothesis I_print : forall ts s, I s -> I (print ts s).
Hypothesis I_savefig : forall ts s, I s -> I (savefig ts s).

Lemma ascending_any (b : Z) (slices : list Z) :
  ascending (fun _ _ => True) b slices.
Proof.
  revert b. induction slices; simpl; auto.
Qed.

Lemma for_loop_invariant (fuel : nat) (slices : list Z) (s : Loop lib) :
  I s -> I (state_of (for_loop lib p fuel slices s)).
Proof.
  intro Hs.
  destruct (for_loop_inv lib p (fun _ _ => True) (fun _ => I)
              (fun _ s0 H _ => I_sub_step s0 H)
              (fun _ ts s0 _ H => I_print ts s0 H)
              (fun ts s0 H _ _ => I_savefig ts s0 H)
              fuel slices 0%Z s (ascending_any _ _) Hs) as [_ H].
  exact H.
Qed.

Lemma run_invariant (fuel : nat) (c : OverlandFlow.t (Fields lib)) :
  I (initial c) -> I (state_of (run lib p fuel c)).
Proof.
  intro H0. unfold run.
  destruct (range _ _ _); [now apply for_loop_invariant | exact H0].
Qed.

End RunInvariant.

(** *** Recorded times are positive *)

Definition dt_positive (lib : Landlab) : Prop :=
  forall c r, 0 < next_dt lib c r.

Definition times_inv {lib : Landlab} (s : Loop lib) : Prop :=
  0 <= elapsed_time s /\
  Forall (fun t => 0 < t /\ exists e, In e (trace s) /\ t = end_time e /\
                                      0 <= start_time e /\ 0 < step_dt e)
         (outlet_times s).

Lemma times_inv_sub_step (lib : Landlab) (p : Params) :
  dt_positive lib ->
  forall s : Loop lib, times_inv s -> times_inv (state_of (sub_step lib p s)).
Proof.
  intros Hdt s (H0 & Hall).
  pose proof (sub_step_trace lib p s) as Htr.
  pose proof (sub_step_elapsed lib p s) as Hel.
  set (d := OverlandFlow.dt (overland_flow lib (prepared lib p s))) in *.
  assert (0 < d) as Hd by apply (Hdt (component s)).
  assert (Forall (fun t => 0 < t /\ exists e,
                     In e (trace (state_of (sub_step lib p s))) /\ t = end_time e /\
                     0 <= start_time e /\ 0 < step_dt e) (outlet_times s)) as Hold.
  { eapply Forall_weaken; [|exact Hall]. simpl.
    intros t (Ht & e & Hin & He). split; [exact Ht|].
    exists e. split; [|exact He]. rewrite Htr. apply in_or_app. now left. }
  split; [rewrite Hel; lra|].
  revert Hold Htr Hel. unfold sub_step. fold d.
  destruct (nth_error _ _); simpl; intros Hold Htr Hel; [|exact Hold].
  apply Forall_snoc; [exact Hold|].
  split; [lra|].
  eexists. split; [rewrite Htr; apply in_or_app; right; left; reflexivity|].
  unfold end_time; simpl. repeat split; [exact H0 | exact Hd].
Qed.

Lemma times_inv_run (lib : Landlab) (p : Params) (fuel : nat) c :
  dt_positive lib -> times_inv (state_of (run lib p fuel c)).
Proof.
  intros Hdt. apply run_invariant.
  - now apply times_inv_sub_step.
  - intros ts s H. exact H.
  - intros ts s H. exact H.
  - split; simpl; [apply Qle_refl | constructor].
Qed.

(** *** The intensity of a sub-step is decided by its start time *)

Definition forcing_inv (p : Params) {lib : Landlab} (s : Loop lib) : Prop :=
  Forall (fun e => intensity e = intensity_at p (start_time e)) (trace s).

Lemma forcing_inv_run (lib : Landlab) (p : Params) (fuel : nat) c :
  forcing_inv p (state_of (run lib p fuel c)).
Proof.
  apply run_invariant.
  - intros s H. unfold forcing_inv. rewrite sub_step_trace.
    apply Forall_snoc; [exact H | reflexivity].
  - intros ts s H. exact H.
  - intros ts s H. exact H.
  - constructor.
Qed.

Lemma intensity_at_storm (p : Params) (t : Q) :
  t < inject_Z (storm_duration p) -> intensity_at p t = rainfall_intensity p.
Proof.
  intro H. unfold intensity_at. apply Qltb_true in H. now rewrite H.
Qed.

Lemma intensity_at_dry (p : Params) (t : Q) :
  inject_Z (storm_duration p) <= t -> intensity_at p t = 0.
Proof.
  intro H. unfold intensity_at. apply Qltb_false in H. now rewrite H.
Qed.

Lemma prepared_intensity (lib : Landlab) (p : Params) (s : Loop lib) :
  OverlandFlow.rainfall_intensity (prepared lib p s) = intensity_at p (elapsed_time s).
Proof.
  unfold prepared, assign. destruct (calc_time_step lib (component s)). reflexivity.
Qed.

(** ** The slices of the [for] loop *)

Definition checkpoints (step : Z) (n : nat) : list Z :=
  map (fun k => (Z.of_nat k * step)%Z) (seq 1 n).

(** Number of checkpoints after slice 0: the run time divided by the
    interval, rounded up. *)
Definition checkpoint_count (p : Params) : nat :=
  Z.to_nat ((model_run_time p + time_step p - 1) / time_step p).


Lemma range_slices (p : Params) :
  (0 < time_step p)%Z -> (0 <= model_run_time p)%Z ->
  range 0 (model_run_time p + time_step p) (time_step p)
  = Some (0%Z :: checkpoints (time_step p) (checkpoint_count p)).
Proof.
  intros Hs Hr. unfold range, range_length, checkpoints, checkpoint_count.
  assert ((time_step p =? 0)%Z = false) as -> by (apply Z.eqb_neq; lia).
  assert ((0 <? time_step p)%Z = true) as -> by (apply Z.ltb_lt; lia).
  assert ((0 <? model_run_time p + time_step p)%Z = true) as ->
      by (apply Z.ltb_lt; lia).
  replace (model_run_time p + time_step p - 0 - 1)%Z
    with (model_run_time p + time_step p - 1)%Z by lia.
  set (q := ((model_run_time p + time_step p - 1) / time_step p)%Z).
  assert (0 <= q)%Z as Hq by (apply Z.div_pos; lia).
  replace (Z.to_nat (q + 1)) with (S (Z.to_nat q)) by lia.
  simpl seq. simpl map. reflexivity.
Qed.

Lemma multiples_positive (step : Z) (m a : nat) :
  (0 < step)%Z -> (1 <= a)%nat ->
  filter (Z.ltb 0) (map (fun k => (Z.of_nat k * step)%Z) (seq a m))
  = map (fun k => (Z.of_nat k * step)%Z) (seq a m).
Proof.
  intro Hs. revert a. induction m as [|m IH]; intros a Ha; simpl; [reflexivity|].
  assert ((0 <? Z.of_nat a * step)%Z = true) as -> by (apply Z.ltb_lt; nia).
  f_equal. apply IH. lia.
Qed.

Lemma checkpoints_positive (step : Z) (n : nat) :
  (0 < step)%Z -> filter (Z.ltb 0) (checkpoints step n) = checkpoints step n.
Proof.
  intro Hs. apply multiples_positive; [exact Hs | lia].
Qed.

Lemma multiples_increasing (step : Z) (m a : nat) :
  (0 < step)%Z ->
  StronglySorted Z.lt (map (fun k => (Z.of_nat k * step)%Z) (seq a m)).
Proof.
  intro Hs. revert a. induction m as [|m IH]; intro a; simpl; constructor.
  - apply IH.
  - apply Forall_forall. intros x Hx. apply in_map_iff in Hx.
    destruct Hx as (k & <- & Hk). apply in_seq in Hk. nia.
Qed.

Lemma checkpoints_increasing (step : Z) (n : nat) :
  (0 < step)%Z -> StronglySorted Z.lt (checkpoints step n).
Proof.
  intro Hs. now apply multiples_increasing.
Qed.

Lemma checkpoints_ascending (step : Z) (n : nat) :
  (0 < step)%Z -> ascending Z.le 0%Z (checkpoints step n).
Proof.
  intro Hs. unfold checkpoints.
  assert (forall m a b, (b <= Z.of_nat a * step)%Z ->
            ascending Z.le b (map (fun k => (Z.of_nat k * step)%Z) (seq a m))) as H.
  { induction m as [|m IH]; intros a b Hb; simpl; [exact I|].
    split; [exact Hb|]. apply IH. nia. }
  apply H. nia.
Qed.

Lemma checkpoints_bound (step : Z) (n : nat) (ts : Z) :
  (0 < step)%Z -> In ts (checkpoints step n) -> (0 < ts <= Z.of_nat n * step)%Z.
Proof.
  intros Hs Hin. apply in_map_iff in Hin. destruct Hin as (k & <- & Hk).
  apply in_seq in Hk. nia.
Qed.

Lemma final_checkpoint_covers (p : Params) :
  (0 < time_step p)%Z -> (0 <= model_run_time p)%Z ->
  (model_run_time p <= Z.of_nat (checkpoint_count p) * time_step p
   < model_run_time p + time_step p)%Z.
Proof.
  intros Hs Hr. unfold checkpoint_count.
  set (m := (model_run_time p + time_step p - 1)%Z).
  assert (0 <= m / time_step p)%Z as Hq by (apply Z.div_pos; lia).
  rewrite Z2Nat.id by exact Hq.
  pose proof (Z.div_mod m (time_step p) ltac:(lia)) as E.
  pose proof (Z.mod_pos_bound m (time_step p) Hs) as B.
  subst m. nia.
Qed.

(** When the interval divides the run time, the last checkpoint is the run
    time itself. *)
Lemma final_checkpoint_exact (p : Params) :
  (0 < time_step p)%Z -> (0 <= model_run_time p)%Z ->
  (model_run_time p mod time_step p = 0)%Z ->
  (Z.of_nat (checkpoint_count p) * time_step p = model_run_time p)%Z.
Proof.
  intros Hs Hr Hd.
  pose proof (final_checkpoint_covers p Hs Hr) as B.
  apply Z.mod_divide in Hd; [|lia]. destruct Hd as [k Hk].
  set (n := Z.of_nat (checkpoint_count p)) in *.
  set (S := time_step p) in *. rewrite Hk in *.
  assert (k <= n)%Z by nia. assert (n < k + 1)%Z by nia.
  replace n with k by lia. reflexivity.
Qed.

(** ** What the loops leave untouched and what they add *)

Lemma while_loop_frame (lib : Landlab) (p : Params) (fuel : nat) (ts : Z) (s : Loop lib) :
  printed (state_of (while_loop lib p fuel ts s)) = printed s /\
  figures (state_of (while_loop lib p fuel ts s)) = figures s.
Proof.
  apply (while_loop_inv lib p
           (fun _ x => printed x = printed s /\ figures x = figures s)); [|auto].
  intros _ x [Hp Hf] _. destruct (sub_step_frame lib p x) as [Ep Ef].
  rewrite Ep, Ef. auto.
Qed.

Lemma for_loop_outputs (lib : Landlab) (p : Params) (fuel : nat) (slices : list Z) :
  forall s s' : Loop lib,
    for_loop lib p fuel slices s = Finished s' ->
    printed s' = printed s ++ slices /\
    map fig_slice (figures s') = map fig_slice (figures s) ++ filter (Z.ltb 0) slices.
Proof.
  induction slices as [|ts rest IH]; intros s s'; simpl.
  - intro E; injection E as <-. rewrite !app_nil_r. auto.
  - unfold slice_body.
    destruct (while_loop_frame lib p fuel ts (print ts s)) as [Fp Ff].
    destruct (while_loop lib p fuel ts (print ts s)) as [s1|e s1|s1];
      try discriminate.
    simpl in Fp, Ff. intro E. apply IH in E. destruct E as [Ep Ef].
    rewrite Ep, Ef. destruct (0 <? ts)%Z; simpl; rewrite ?Fp, ?Ff; simpl;
      rewrite ?map_app; simpl; rewrite <- ?app_assoc; auto.
Qed.

(** ** Progress: enough fuel finishes the run *)

Lemma fuel_for (m dmin : Q) :
  0 < dmin -> exists n : nat, m <= inject_Z (Z.of_nat n) * dmin.
Proof.
  intro Hd. exists (Z.to_nat (Qceiling (m / dmin))).
  assert (m / dmin <= inject_Z (Z.of_nat (Z.to_nat (Qceiling (m / dmin))))) as H.
  { eapply Qle_trans; [apply Qle_ceiling|].
    rewrite <- Zle_Qle. lia. }
  apply (Qmult_le_compat_r _ _ dmin) in H; [|lra].
  eapply Qle_trans; [|exact H].
  assert (m / dmin * dmin == m) as -> by (field; lra).
  apply Qle_refl.
Qed.

Section Progress.

Variable lib : Landlab.
Variable p : Params.
Variable dmin : Q.

Hypothesis dmin_pos : 0 < dmin.
Hypothesis lib_dt : dt_at_least lib dmin.
Hypothesis lib_outlet : outlet_mapped lib p.

Lemma while_loop_finishes (n : nat) (ts : Z) :
  forall s : Loop lib,
    inject_Z ts - elapsed_time s <= inject_Z (Z.of_nat n) * dmin ->
    forall fuel, (n <= fuel)%nat ->
    exists s', while_loop lib p fuel ts s = Finished s'.
Proof.
  induction n as [|n IH]; intros s Hn fuel Hf.
  - assert (Qltb (elapsed_time s) (inject_Z ts) = false) as G.
    { apply Qltb_false. change (inject_Z (Z.of_nat 0)) with 0 in Hn. lra. }
    exists s. destruct fuel; simpl; rewrite G; reflexivity.
  - destruct fuel as [|fuel]; [lia|]. simpl.
    destruct (Qltb _ _); [|eexists; reflexivity].
    pose proof (sub_step_elapsed lib p s) as He.
    destruct (sub_step_mapped lib p s lib_outlet) as [s1 E].
    rewrite E in *. simpl in He.
    apply IH; [|lia].
    pose proof (lib_dt (component s) (intensity_at p (elapsed_time s))) as Hd.
    unfold next_dt in Hd. fold (prepared lib p s) in Hd.
    rewrite Nat2Z.inj_succ, <- Z.add_1_r, inject_Z_plus in Hn.
    rewrite He. change (inject_Z 1) with 1 in Hn. lra.
Qed.

Lemma elapsed_nonneg_while (fuel : nat) (ts : Z) (s : Loop lib) :
  0 <= elapsed_time s -> 0 <= elapsed_time (state_of (while_loop lib p fuel ts s)).
Proof.
  apply (while_loop_inv lib p (fun _ x => 0 <= elapsed_time x)).
  intros _ x Hx _. rewrite sub_step_elapsed.
  pose proof (lib_dt (component x) (intensity_at p (elapsed_time x))) as Hd.
  unfold next_dt in Hd. fold (prepared lib p x) in Hd. lra.
Qed.

Lemma for_loop_finishes (n : nat) (slices : list Z) :
  forall s : Loop lib,
    0 <= elapsed_time s ->
    (forall ts, In ts slices -> inject_Z ts <= inject_Z (Z.of_nat n) * dmin) ->
    forall fuel, (n <= fuel)%nat ->
    exists s', for_loop lib p fuel slices s = Finished s'.
Proof.
  induction slices as [|ts rest IH]; intros s H0 Hb fuel Hf; simpl.
  - eexists; reflexivity.
  - unfold slice_body.
    assert (inject_Z ts - elapsed_time (print ts s)
            <= inject_Z (Z.of_nat n) * dmin) as Hn.
    { simpl. specialize (Hb ts (or_introl eq_refl)). lra. }
    destruct (while_loop_finishes n ts (print ts s) Hn fuel Hf) as [s1 E].
    pose proof (elapsed_nonneg_while fuel ts (print ts s) H0) as H1.
    rewrite E in *. simpl in H1.
    apply IH; [|intros; apply Hb; now right|exact Hf].
    destruct (0 <? ts)%Z; exact H1.
Qed.

End Progress.

(** ** Checkpoints are reached by the sub-step that crosses them *)

(** A figure is drawn at or after its slice, and the sub-step that brought
    the elapsed time there started before the slice: the overshoot is less
    than that sub-step's [dt]. *)
Definition within_one_dt (tr : list SubStep) (f : Figure) : Prop :=
  inject_Z (fig_slice f) <= fig_elapsed f /\
  exists e, In e tr /\
            fig_elapsed f = end_time e /\
            start_time e < inject_Z (fig_slice f) /\
            fig_elapsed f - inject_Z (fig_slice f) < step_dt e.

Definition ckpt_inv {lib : Landlab} (ts : Z) (s : Loop lib) : Prop :=
  0 <= elapsed_time s /\
  elapsed_time s = last (map end_time (trace s)) 0 /\
  Forall (fun e => start_time e < inject_Z ts) (trace s) /\
  Forall (within_one_dt (trace s)) (figures s) /\
  Forall (fun f => fig_elapsed f <= elapsed_time s) (figures s).

Lemma within_one_dt_grow (tr : list SubStep) (e : SubStep) (f : Figure) :
  within_one_dt tr f -> within_one_dt (tr ++ [e]) f.
Proof.
  intros (H1 & e0 & Hin & H2). split; [exact H1|].
  exists e0. split; [apply in_or_app; now left | exact H2].
Qed.

Section Checkpoints.

Variable lib : Landlab.
Variable p : Params.

Hypothesis lib_dt : dt_nonneg lib.

Lemma ckpt_inv_sub_step (ts : Z) (s : Loop lib) :
  ckpt_inv ts s -> elapsed_time s < inject_Z ts ->
  ckpt_inv ts (state_of (sub_step lib p s)).
Proof.
  intros (H0 & Hl & Hs & Hf & He) G. unfold ckpt_inv.
  destruct (sub_step_frame lib p s) as [_ Ef].
  rewrite sub_step_elapsed, sub_step_trace, Ef.
  pose proof (lib_dt (component s) (intensity_at p (elapsed_time s))) as Hd.
  unfold next_dt in Hd. fold (prepared lib p s) in Hd.
  repeat split.
  - lra.
  - rewrite map_app. simpl. rewrite last_last. reflexivity.
  - apply Forall_snoc; [exact Hs | exact G].
  - eapply Forall_weaken; [|exact Hf]. intros f. apply within_one_dt_grow.
  - eapply Forall_weaken; [|exact He]. simpl. intros f Hx. lra.
Qed.

Lemma ckpt_inv_print (b ts : Z) (s : Loop lib) :
  (b <= ts)%Z -> ckpt_inv b s -> ckpt_inv ts (print ts s).
Proof.
  intros Hb (H0 & Hl & Hs & Hf & He). unfold ckpt_inv; simpl.
  repeat split; auto.
  eapply Forall_weaken; [|exact Hs]. simpl. intros e Hx.
  rewrite Zle_Qle in Hb. lra.
Qed.

Lemma ckpt_inv_savefig (ts : Z) (s : Loop lib) :
  ckpt_inv ts s -> inject_Z ts <= elapsed_time s -> (0 < ts)%Z ->
  ckpt_inv ts (savefig ts s).
Proof.
  intros (H0 & Hl & Hs & Hf & He) Hx Hpos. unfold ckpt_inv; simpl.
  repeat split; auto.
  - apply Forall_snoc; [exact Hf|].
    split; simpl; [exact Hx|].
    destruct (trace s) as [|e0 tr0] eqn:Etr.
    + exfalso. simpl in Hl. rewrite Hl in Hx.
      assert (inject_Z 0 < inject_Z ts) as Hq by (rewrite <- Zlt_Qlt; exact Hpos).
      change (inject_Z 0) with 0 in Hq. lra.
    + destruct (exists_last (l := e0 :: tr0)) as (tr & e & E); [discriminate|].
      rewrite E in *. rewrite map_app in Hl. simpl in Hl. rewrite last_last in Hl.
      apply Forall_app in Hs. destruct Hs as [_ Hs]. inversion Hs; subst.
      exists e. split; [apply in_or_app; right; now left|].
      split; [exact Hl|]. split; [assumption|].
      rewrite Hl. unfold end_time. lra.
  - apply Forall_snoc; [exact He | simpl; apply Qle_refl].
Qed.

Lemma ckpt_inv_for_loop (fuel : nat) (slices : list Z) (b : Z) (s : Loop lib) :
  ascending Z.le b slices -> ckpt_inv b s ->
  exists b', ckpt_inv b' (state_of (for_loop lib p fuel slices s)).
Proof.
  apply (for_loop_inv lib p Z.le (@ckpt_inv lib)).
  - exact ckpt_inv_sub_step.
  - exact ckpt_inv_print.
  - exact ckpt_inv_savefig.
Qed.

End Checkpoints.

(** ** A finished run *)

(** What a finished run with a positive interval looks like: the slices
    printed, the figures saved, how each figure was reached and how far the
    elapsed time got. *)
Definition schedule_met {lib : Landlab} (p : Params) (s : Loop lib) : Prop :=
  printed s = 0%Z :: checkpoints (time_step p) (checkpoint_count p) /\
  map fig_slice (figures s) = checkpoints (time_step p) (checkpoint_count p) /\
  Forall (within_one_dt (trace s)) (figures s) /\
  inject_Z (Z.of_nat (checkpoint_count p) * time_step p) <= elapsed_time s.

Lemma last_figure_slice (l : list Figure) (step : Z) (n : nat) :
  map fig_slice l = checkpoints step (S n) ->
  exists f, In f l /\ fig_slice f = (Z.of_nat (S n) * step)%Z.
Proof.
  intro E.
  assert (In (Z.of_nat (S n) * step)%Z (map fig_slice l)) as Hin.
  { rewrite E. unfold checkpoints. apply in_map_iff. exists (S n).
    split; [reflexivity|]. apply in_seq. lia. }
  apply in_map_iff in Hin. destruct Hin as (f & Hf & Hin). eauto.
Qed.

Lemma run_finishes (lib : Landlab) (p : Params) (dmin : Q) c :
  0 < dmin -> dt_at_least lib dmin -> outlet_mapped lib p ->
  (0 < time_step p)%Z -> (0 <= model_run_time p)%Z ->
  exists fuel0, forall fuel, (fuel0 <= fuel)%nat ->
    exists s, run lib p fuel c = Finished s /\ schedule_met p s.
Proof.
  intros Hd Hdt Hm Hs Hr.
  assert (dt_nonneg lib) as Hnn by (intros x r; specialize (Hdt x r); lra).
  destruct (fuel_for (inject_Z (Z.of_nat (checkpoint_count p) * time_step p)) dmin Hd)
    as [n Hn].
  exists n. intros fuel Hf. unfold run. rewrite (range_slices p Hs Hr).
  set (slices := 0%Z :: checkpoints (time_step p) (checkpoint_count p)).
  assert (forall ts, In ts slices -> inject_Z ts <= inject_Z (Z.of_nat n) * dmin) as Hb.
  { intros ts [<-|Hin].
    - eapply Qle_trans; [|exact Hn]. rewrite <- Zle_Qle. nia.
    - apply checkpoints_bound in Hin; [|exact Hs].
      eapply Qle_trans; [|exact Hn]. rewrite <- Zle_Qle. lia. }
  destruct (for_loop_finishes lib p dmin Hd Hdt Hm n slices (initial c)
              (Qle_refl 0) Hb fuel Hf) as [s E].
  exists s. split; [exact E|].
  destruct (for_loop_outputs lib p fuel slices _ _ E) as [Ep Ef].
  destruct (ckpt_inv_for_loop lib p Hnn fuel slices 0%Z (initial c)) as [b Hb'].
  { split; [lia|]. now apply checkpoints_ascending. }
  { unfold ckpt_inv; simpl. repeat split; try constructor. apply Qle_refl. }
  rewrite E in Hb'. simpl in Hb'. destruct Hb' as (H0 & _ & _ & Hw & He).
  simpl in Ep, Ef. rewrite checkpoints_positive in Ef by exact Hs.
  unfold schedule_met. repeat split; auto.
  destruct (checkpoint_count p) as [|k] eqn:Ek.
  - simpl. exact H0.
  - destruct (last_figure_slice _ _ _ Ef) as (f & Hin & Hsl).
    rewrite Forall_forall in Hw, He.
    destruct (Hw f Hin) as [Hge _]. specialize (He f Hin).
    rewrite Hsl in Hge. lra.
Qed.

(** ** The constant-step component meets the conditions *)

Lemma steady_next_dt (nodes : nat) (h : Q) c r : next_dt (steady nodes h) c r = h.
Proof.
  reflexivity.
Qed.

Lemma steady_outlet_mapped (nodes : nat) (h : Q) (p : Params) :
  (outlet p < nodes)%nat -> outlet_mapped (steady nodes h) p.
Proof.
  intros H c. simpl. rewrite repeat_length. exact H.
Qed.


Lemma increasing_NoDup (l : list Z) : StronglySorted Z.lt l -> NoDup l.
Proof.
  induction 1 as [|a l Hs IH Ha]; constructor; [|exact IH].
  intro Hin. rewrite Forall_forall in Ha. specialize (Ha a Hin). lia.
Qed.

(** The notebook's timing on a grid of four nodes with the outlet at node 3,
    small enough to run the loop by evaluation. *)
Definition four_nodes : Params :=
  {| model_run_time := model_run_time notebook_params;
     storm_duration := storm_duration notebook_params;
     time_step := time_step notebook_params;
     rainfall_intensity := rainfall_intensity notebook_params;
     outlet := 3 |}.

(** The same with a run time that the interval does not divide. *)
Definition short_run : Params :=
  {| model_run_time := 100;
     storm_duration := storm_duration notebook_params;
     time_step := time_step notebook_params;
     rainfall_intensity := rainfall_intensity notebook_params;
     outlet := 3 |}.

(** ** The component along a run

    What the loop does to the component, told without the loop's lists:
    one sub-step assigns [dt] and the rainfall intensity of the current
    elapsed time, calls [overland_flow()] and advances the elapsed time by
    the [dt] read back.  The samples the component offers along the way are
    compared below with what the loop records. *)

Definition component_step (lib : Landlab) (p : Params)
           (ct : OverlandFlow.t (Fields lib) * Q) : OverlandFlow.t (Fields lib) * Q :=
  let c := overland_flow lib (assign lib (fst ct) (intensity_at p (snd ct))) in
  (c, snd ct + OverlandFlow.dt c).

(** The component and the elapsed time after [n] sub-steps. *)
Fixpoint orbit (lib : Landlab) (p : Params) (n : nat)
         (ct : OverlandFlow.t (Fields lib) * Q) : OverlandFlow.t (Fields lib) * Q :=
  match n with
  | O => ct
  | S k => component_step lib p (orbit lib p k ct)
  end.

(** The elapsed time after sub-step [k] (counted from 0) and the entry of
    the mapped discharge array at the outlet index then, if there is one. *)
Definition sample_time (lib : Landlab) (p : Params) (c : OverlandFlow.t (Fields lib))
           (k : nat) : Q :=
  snd (orbit lib p (S k) (c, 0)).

Definition sample_discharge (lib : Landlab) (p : Params)
           (c : OverlandFlow.t (Fields lib)) (k : nat) : option Q :=
  nth_error (discharge_mapper lib (fst (orbit lib p (S k) (c, 0)))) (outlet p).

(** Sub-step [k] as the component lives it: when it starts, the [dt] read
    after it, and the intensity assigned before [overland_flow()]. *)
Definition sub_step_entry (lib : Landlab) (p : Params)
           (c : OverlandFlow.t (Fields lib)) (k : nat) : SubStep :=
  {| start_time := snd (orbit lib p k (c, 0));
     step_dt := OverlandFlow.dt (fst (orbit lib p (S k) (c, 0)));
     intensity := intensity_at p (snd (orbit lib p k (c, 0))) |}.

Definition executed {lib : Landlab} (s : Loop lib) : nat := length (trace s).

Definition recorded {lib : Landlab} (s : Loop lib) : nat := length (outlet_times s).

(** The loop state follows the component: after the executed sub-steps the
    component and the elapsed time are those of [orbit], and the trace lists
    the sub-steps the component went through. *)
Definition followed {lib : Landlab} (p : Params) (c : OverlandFlow.t (Fields lib))
           (s : Loop lib) : Prop :=
  (component s, elapsed_time s) = orbit lib p (executed s) (c, 0) /\
  trace s = map (sub_step_entry lib p c) (seq 0 (executed s)).

(** Every executed sub-step has its sample, in order. *)
Definition series_exact {lib : Landlab} (p : Params) (c : OverlandFlow.t (Fields lib))
           (s : Loop lib) : Prop :=
  outlet_times s = map (sample_time lib p c) (seq 0 (executed s)) /\
  map Some (outlet_discharge s) = map (sample_discharge lib p c) (seq 0 (executed s)).

(** The last executed sub-step has no sample: the outlet index was outside
    the mapped array. *)
Definition series_short {lib : Landlab} (p : Params) (c : OverlandFlow.t (Fields lib))
           (s : Loop lib) : Prop :=
  executed s = S (recorded s) /\
  outlet_times s = map (sample_time lib p c) (seq 0 (recorded s)) /\
  map Some (outlet_discharge s) = map (sample_discharge lib p c) (seq 0 (recorded s)) /\
  sample_discharge lib p c (recorded s) = None.

Lemma sub_step_component (lib : Landlab) (p : Params) (s : Loop lib) :
  component (state_of (sub_step lib p s))
  = overland_flow lib (assign lib (component s) (intensity_at p (elapsed_time s))).
Proof.
  unfold sub_step, prepared. destruct (nth_error _ _); reflexivity.
Qed.

Lemma sub_step_raises (lib : Landlab) (p : Params) (s : Loop lib) :
  (exists q s', sub_step lib p s = Finished s' /\
                nth_error (discharge_mapper lib (component s')) (outlet p) = Some q /\
                outlet_discharge s' = outlet_discharge s ++ [q] /\
                outlet_times s' = outlet_times s ++ [elapsed_time s']) \/
  (exists s', sub_step lib p s = Raised IndexError s' /\
              nth_error (discharge_mapper lib (component s')) (outlet p) = None /\
              outlet_discharge s' = outlet_discharge s /\
              outlet_times s' = outlet_times s).
Proof.
  unfold sub_step. destruct (nth_error _ _) as [q|] eqn:E; [left | right].
  - exists q. eexists. split; [reflexivity|]. simpl. repeat split. exact E.
  - eexists. split; [reflexivity|]. simpl. repeat split. exact E.
Qed.

Lemma followed_sub_step (lib : Landlab) (p : Params) c (s : Loop lib) :
  followed p c s -> followed p c (state_of (sub_step lib p s)).
Proof.
  intros [Ho Ht]. unfold followed, executed in *.
  assert (fst (orbit lib p (length (trace s)) (c, 0)) = component s) as Hc
      by now rewrite <- Ho.
  assert (snd (orbit lib p (length (trace s)) (c, 0)) = elapsed_time s) as He
      by now rewrite <- Ho.
  rewrite sub_step_trace, sub_step_elapsed, sub_step_component, length_app.
  simpl length. replace (length (trace s) + 1)%nat with (S (length (trace s))) by lia.
  split.
  - simpl orbit. unfold component_step. rewrite Hc, He. reflexivity.
  - rewrite seq_S, map_app. simpl. rewrite <- Ht. f_equal. f_equal.
    unfold sub_step_entry. simpl orbit. unfold component_step. rewrite Hc, He.
    reflexivity.
Qed.

Lemma followed_run (lib : Landlab) (p : Params) (fuel : nat) c :
  followed p c (state_of (run lib p fuel c)).
Proof.
  apply run_invariant.
  - intros s. apply followed_sub_step.
  - intros ts s H. exact H.
  - intros ts s H. exact H.
  - split; reflexivity.
Qed.

(** *** Invariants that tell a raised run from the others *)

Section OutcomeInvariant.

Variable lib : Landlab.
Variable p : Params.
Variable I : Loop lib -> Prop.
Variable E : Loop lib -> Prop.

Hypothesis I_finished : forall s s', I s -> sub_step lib p s = Finished s' -> I s'.
Hypothesis I_raised : forall s s', I s -> sub_step lib p s = Raised IndexError s' -> E s'.
Hypothesis I_print : forall ts s, I s -> I (print ts s).
Hypothesis I_savefig : forall ts s, I s -> I (savefig ts s).

Definition holds (o : outcome lib) : Prop :=
  match o with
  | Raised IndexError s => E s
  | Finished s | OutOfFuel s | Raised ValueError s => I s
  end.

Lemma while_loop_holds (fuel : nat) (ts : Z) :
  forall s, I s -> holds (while_loop lib p fuel ts s).
Proof.
  induction fuel as [|fuel IH]; intros s Hs; simpl.
  - destruct (Qltb _ _); exact Hs.
  - destruct (Qltb _ _); [|exact Hs].
    destruct (sub_step_raises lib p s) as [(q & s' & Es & _) | (s' & Es & _)];
      rewrite Es.
    + apply IH. now apply (I_finished s).
    + simpl. now apply (I_raised s).
Qed.

Lemma for_loop_holds (fuel : nat) (slices : list Z) :
  forall s, I s -> holds (for_loop lib p fuel slices s).
Proof.
  induction slices as [|ts rest IH]; intros s Hs; simpl; [exact Hs|].
  unfold slice_body.
  pose proof (while_loop_holds fuel ts (print ts s) (I_print ts s Hs)) as H.
  destruct (while_loop lib p fuel ts (print ts s)) as [s1|e s1|s1]; simpl in *.
  - apply IH. destruct (0 <? ts)%Z; [now apply I_savefig | exact H].
  - exact H.
  - exact H.
Qed.

Lemma run_holds (fuel : nat) (c : OverlandFlow.t (Fields lib)) :
  I (initial c) -> holds (run lib p fuel c).
Proof.
  intro H0. unfold run. destruct (range _ _ _); [now apply for_loop_holds | exact H0].
Qed.

End OutcomeInvariant.

Lemma series_run (lib : Landlab) (p : Params) (fuel : nat) c :
  holds lib (fun s => followed p c s /\ series_exact p c s) (series_short p c)
        (run lib p fuel c).
Proof.
  apply run_holds.
  - intros s s' [Hf [Ht Hd]] Es.
    pose proof (followed_sub_step lib p c s Hf) as Hf'. rewrite Es in Hf'. simpl in Hf'.
    split; [exact Hf'|].
    destruct (sub_step_raises lib p s) as [(q & s1 & Es1 & Hq & Hd1 & Ht1) | (s1 & Es1 & _)];
      [|congruence].
    rewrite Es in Es1. injection Es1 as <-.
    destruct Hf' as [Ho' Htr']. unfold series_exact, executed in *.
    pose proof (sub_step_trace lib p s) as Htr. rewrite Es in Htr. simpl in Htr.
    assert (length (trace s') = S (length (trace s))) as Hlen
        by (rewrite Htr, length_app; simpl; lia).
    rewrite Hlen, seq_S, !map_app. simpl. rewrite Ht1, Hd1, map_app, Ht, Hd. simpl.
    unfold sample_time, sample_discharge. rewrite <- Hlen, <- Ho'. simpl.
    rewrite Hq. split; reflexivity.
  - intros s s' [Hf [Ht Hd]] Es.
    pose proof (followed_sub_step lib p c s Hf) as Hf'. rewrite Es in Hf'. simpl in Hf'.
    destruct (sub_step_raises lib p s) as [(q & s1 & Es1 & _) | (s1 & Es1 & Hq & Hd1 & Ht1)];
      [congruence|].
    rewrite Es in Es1. injection Es1 as <-.
    destruct Hf' as [Ho' Htr']. unfold series_exact, series_short, executed, recorded in *.
    pose proof (sub_step_trace lib p s) as Htr. rewrite Es in Htr. simpl in Htr.
    assert (length (outlet_times s') = length (trace s)) as Hrec
        by (rewrite Ht1, Ht, length_map, length_seq; reflexivity).
    assert (length (trace s') = S (length (trace s))) as Hlen
        by (rewrite Htr, length_app; simpl; lia).
    rewrite Hrec. split; [exact Hlen|]. rewrite Ht1, Hd1.
    split; [exact Ht|]. split; [exact Hd|].
    unfold sample_discharge. rewrite <- Hlen, <- Ho'. simpl. exact Hq.
  - intros ts s H. exact H.
  - intros ts s H. exact H.
  - split; split; reflexivity.
Qed.

(** Recorded times are in order and never after the elapsed time. *)
Definition ordered_inv {lib : Landlab} (s : Loop lib) : Prop :=
  StronglySorted Qle (outlet_times s) /\
  Forall (fun t => t <= elapsed_time s) (outlet_times s).

Lemma ordered_inv_run (lib : Landlab) (p : Params) (fuel : nat) c :
  dt_nonneg lib -> ordered_inv (state_of (run lib p fuel c)).
Proof.
  intro Hdt. apply run_invariant.
  - intros s [Hs Hb].
    pose proof (Hdt (component s) (intensity_at p (elapsed_time s))) as Hd.
    unfold next_dt in Hd. fold (prepared lib p s) in Hd.
    set (d := OverlandFlow.dt (overland_flow lib (prepared lib p s))) in *.
    unfold sub_step. fold d. destruct (nth_error _ _); unfold ordered_inv; simpl.
    + split.
      * apply StronglySorted_snoc; [exact Hs|].
        eapply Forall_weaken; [|exact Hb]. simpl. intros x Hx. lra.
      * apply Forall_snoc; [|apply Qle_refl].
        eapply Forall_weaken; [|exact Hb]. simpl. intros x Hx. lra.
    + split; [exact Hs|].
      eapply Forall_weaken; [|exact Hb]. simpl. intros x Hx. lra.
  - intros ts s H. exact H.
  - intros ts s H. exact H.
  - split; constructor.
Qed.

(** A component that keeps a log of what each [overland_flow()] call finds
    assigned to the instance: the [dt] and the rainfall intensity. *)
Definition recorder (nodes : nat) (h : Q) : Landlab :=
  {| Grid := unit;
     Fields := list (Q * Q);
     new := fun _ _ => Some (OverlandFlow.Build [] 0 0);
     calc_time_step := fun c => (h, c);
     overland_flow := fun c =>
       OverlandFlow.Build
         (OverlandFlow.fields c
          ++ [(OverlandFlow.dt c, OverlandFlow.rainfall_intensity c)])
         (OverlandFlow.dt c) (OverlandFlow.rainfall_intensity c);
     discharge_mapper := fun c => repeat 0 nodes |}.

Definition recorder0 : OverlandFlow.t (list (Q * Q)) := OverlandFlow.Build [] 0 0.

Lemma recorder_log (nodes : nat) (h : Q) (p : Params) (fuel : nat) :
  OverlandFlow.fields (component (state_of (run (recorder nodes h) p fuel recorder0)))
  = map (fun e => (step_dt e, intensity e))
        (trace (state_of (run (recorder nodes h) p fuel recorder0))).
Proof.
  apply (run_invariant (recorder nodes h) p
           (fun s => OverlandFlow.fields (component s)
                     = map (fun e => (step_dt e, intensity e)) (trace s))).
  - intros s H. rewrite sub_step_component, sub_step_trace, map_app. simpl.
    exact (f_equal (fun l => l ++ [(h, intensity_at p (elapsed_time s))]) H).
  - intros ts s H. exact H.
  - intros ts s H. exact H.
  - reflexivity.
Qed.

(** The loops on concrete inputs. *)

Example range_1200_30 :
  option_map (@length Z) (range 0 (1200 + 30) 30) = Some 41%nat /\
  range 0 (100 + 30) 30 = Some [0; 30; 60; 90; 120]%Z /\
  range 0 (-100 + -30) (-30) = Some [0; -30; -60; -90; -120]%Z /\
  range 0 (100 + 0) 0 = None.
Proof.
  repeat split.
Qed.

Example short_run_series :
  exists s, run (steady 4 7) short_run 5 steady0 = Finished s /\
            map Qred (outlet_times s)
            = [7; 14; 21; 28; 35; 42; 49; 56; 63; 70; 77; 84; 91; 98; 105;
               112; 119; 126] /\
            printed s = [0; 30; 60; 90; 120]%Z /\
            length (outlet_discharge s) = 18%nat.
Proof.
  eexists. split; [vm_compute; reflexivity|]. repeat split.
Qed.

Example short_run_out_of_fuel :
  exists s, run (steady 4 7) short_run 4 steady0 = OutOfFuel s /\
            Qred (elapsed_time s) = 28 /\ figures s = [].
Proof.
  eexists. split; [vm_compute; reflexivity|]. repeat split.
Qed.

(** * The claims about the driver loop *)

(** C1: with [model_run_time = 1200] and [time_step = 30] a run that is
    given enough fuel finishes and has saved exactly 40 figures, for the
    slices 30, 60, ..., 1200 in this order: strictly increasing, none
    missing, none twice; each figure is drawn once the elapsed time has
    reached its slice. *)
Theorem checkpoints_1200_30
  (lib : Landlab) (p : Params) (dmin : Q) (c : OverlandFlow.t (Fields lib)) :
  model_run_time p = 1200%Z -> time_step p = 30%Z ->
  0 < dmin -> dt_at_least lib dmin -> outlet_mapped lib p ->
  exists fuel0, forall fuel, (fuel0 <= fuel)%nat ->
    exists s, run lib p fuel c = Finished s /\
      map fig_slice (figures s)
      = [30; 60; 90; 120; 150; 180; 210; 240; 270; 300;
         330; 360; 390; 420; 450; 480; 510; 540; 570; 600;
         630; 660; 690; 720; 750; 780; 810; 840; 870; 900;
         930; 960; 990; 1020; 1050; 1080; 1110; 1140; 1170; 1200]%Z /\
      length (figures s) = 40%nat /\
      StronglySorted Z.lt (map fig_slice (figures s)) /\
      NoDup (map fig_slice (figures s)) /\
      Forall (fun f => inject_Z (fig_slice f) <= fig_elapsed f) (figures s).
Proof.
  intros Hr Hs Hd Hdt Hm.
  destruct (run_finishes lib p dmin c Hd Hdt Hm) as [fuel0 H]; [lia | lia |].
  exists fuel0. intros fuel Hf. destruct (H fuel Hf) as (s & E & Hp & Hfig & Hw & He).
  exists s. split; [exact E|].
  assert (checkpoints (time_step p) (checkpoint_count p) = checkpoints 30 40) as Ec.
  { unfold checkpoint_count. rewrite Hr, Hs. reflexivity. }
  rewrite Ec in Hfig.
  assert (StronglySorted Z.lt (map fig_slice (figures s))) as Hsorted.
  { rewrite Hfig. apply checkpoints_increasing. lia. }
  repeat split.
  - rewrite Hfig. reflexivity.
  - rewrite <- (length_map fig_slice), Hfig. reflexivity.
  - exact Hsorted.
  - now apply increasing_NoDup.
  - eapply Forall_weaken; [|exact Hw]. intros f [Hge _]. exact Hge.
Qed.

Lemma checkpoints_1200_30_witness :
  exists fuel0, forall fuel, (fuel0 <= fuel)%nat ->
    exists s, run (steady 4 7) four_nodes fuel steady0 = Finished s /\
      map fig_slice (figures s)
      = [30; 60; 90; 120; 150; 180; 210; 240; 270; 300;
         330; 360; 390; 420; 450; 480; 510; 540; 570; 600;
         630; 660; 690; 720; 750; 780; 810; 840; 870; 900;
         930; 960; 990; 1020; 1050; 1080; 1110; 1140; 1170; 1200]%Z /\
      length (figures s) = 40%nat /\
      StronglySorted Z.lt (map fig_slice (figures s)) /\
      NoDup (map fig_slice (figures s)) /\
      Forall (fun f => inject_Z (fig_slice f) <= fig_elapsed f) (figures s).
Proof.
  apply (checkpoints_1200_30 (steady 4 7) four_nodes 7 steady0).
  - reflexivity.
  - reflexivity.
  - reflexivity.
  - intros c r. rewrite steady_next_dt. apply Qle_refl.
  - apply steady_outlet_mapped. simpl. lia.
Defined.

(** C2: the rainfall branch is a step function of the elapsed time: the
    configured intensity for [0 <= t < storm_duration], exactly [0] from
    [storm_duration] on; the instance handed to [overland_flow()] carries
    this value, which is the same for any two loop states with equal elapsed
    time, whatever the component and the history. *)
Theorem rainfall_step_function (p : Params) (t : Q) :
  (0 <= t -> t < inject_Z (storm_duration p) ->
   intensity_at p t = rainfall_intensity p) /\
  (inject_Z (storm_duration p) <= t -> intensity_at p t = 0) /\
  (forall lib (s : Loop lib), elapsed_time s == t ->
     OverlandFlow.rainfall_intensity (prepared lib p s) = intensity_at p t) /\
  (forall lib1 lib2 (s1 : Loop lib1) (s2 : Loop lib2),
     elapsed_time s1 == elapsed_time s2 ->
     OverlandFlow.rainfall_intensity (prepared lib1 p s1)
     = OverlandFlow.rainfall_intensity (prepared lib2 p s2)).
Proof.
  assert (forall a b, a == b -> intensity_at p a = intensity_at p b) as Hcomp.
  { intros a b E. unfold intensity_at.
    destruct (Qltb a _) eqn:Ga, (Qltb b _) eqn:Gb; try reflexivity.
    - apply Qltb_true in Ga. apply Qltb_false in Gb. rewrite E in Ga. lra.
    - apply Qltb_false in Ga. apply Qltb_true in Gb. rewrite E in Ga. lra. }
  split; [|split; [|split]].
  - intros _ H. now apply intensity_at_storm.
  - apply intensity_at_dry.
  - intros lib s E. rewrite prepared_intensity. now apply Hcomp.
  - intros lib1 lib2 s1 s2 E. rewrite !prepared_intensity. now apply Hcomp.
Qed.

Lemma rainfall_step_function_witness :
  intensity_at notebook_params 599.5 = rainfall_intensity notebook_params /\
  intensity_at notebook_params 600 = 0.
Proof.
  destruct (rainfall_step_function notebook_params 599.5) as (H1 & _).
  destruct (rainfall_step_function notebook_params 600) as (_ & H2 & _).
  split.
  - apply H1; vm_compute; [discriminate | reflexivity].
  - apply H2. vm_compute. discriminate.
Defined.

(** C3, as stated, fails for a run that the sampling aborts: on a grid of
    four nodes with the notebook's outlet index, one sub-step is executed
    (the component has been stepped once and the elapsed time is 7 s) and
    neither list has an entry for it. *)
Lemma sub_step_without_sample :
  exists s, run (steady 4 7) notebook_params 10 steady0 = Raised IndexError s /\
    (component s, elapsed_time s)
    = orbit (steady 4 7) notebook_params 1 (steady0, 0) /\
    executed s = 1%nat /\ Qred (elapsed_time s) = 7 /\
    outlet_times s = [] /\ outlet_discharge s = [].
Proof.
  eexists. split; [vm_compute; reflexivity|]. repeat split.
Qed.

(** C3, amended: while the component's [dt] is never negative, at every
    point of every run the recorded times are non-decreasing, and entry [k]
    of the two lists is the elapsed time after sub-step [k] and the mapped
    discharge at the outlet index read after that sub-step: one (time,
    discharge) entry per executed sub-step, in the order of execution, with
    the values the component gave.  The only sub-step without an entry is
    one whose sampling raised [IndexError]: it is the last of the run, and
    the outlet index is outside the array mapped after it. *)
Theorem discharge_series_ordered_complete
  (lib : Landlab) (p : Params) (fuel : nat) (c : OverlandFlow.t (Fields lib)) :
  dt_nonneg lib ->
  (component (state_of (run lib p fuel c)), elapsed_time (state_of (run lib p fuel c)))
  = orbit lib p (executed (state_of (run lib p fuel c))) (c, 0) /\
  outlet_times (state_of (run lib p fuel c))
  = map (sample_time lib p c) (seq 0 (recorded (state_of (run lib p fuel c)))) /\
  map Some (outlet_discharge (state_of (run lib p fuel c)))
  = map (sample_discharge lib p c) (seq 0 (recorded (state_of (run lib p fuel c)))) /\
  length (outlet_discharge (state_of (run lib p fuel c)))
  = recorded (state_of (run lib p fuel c)) /\
  StronglySorted Qle (outlet_times (state_of (run lib p fuel c))) /\
  match run lib p fuel c with
  | Raised IndexError s =>
      executed s = S (recorded s) /\ sample_discharge lib p c (recorded s) = None
  | Finished s | OutOfFuel s | Raised ValueError s => executed s = recorded s
  end.
Proof.
  intro Hdt.
  pose proof (series_run lib p fuel c) as H.
  pose proof (ordered_inv_run lib p fuel c Hdt) as [Hs _].
  pose proof (followed_run lib p fuel c) as [Ho _].
  assert (forall s : Loop lib, series_exact p c s -> recorded s = executed s) as Hrec.
  { intros s [Ht _]. unfold recorded. rewrite Ht, length_map, length_seq. reflexivity. }
  assert (forall (s : Loop lib) n,
            map Some (outlet_discharge s) = map (sample_discharge lib p c) (seq 0 n) ->
            length (outlet_discharge s) = n) as Hlen.
  { intros s n Hd. apply (f_equal (@length (option Q))) in Hd.
    now rewrite !length_map, length_seq in Hd. }
  destruct (run lib p fuel c) as [s|[|] s|s]; simpl in *.
  - destruct H as [_ Hx]. pose proof (Hrec s Hx) as R. destruct Hx as [Ht Hd].
    rewrite R. repeat split; auto.
  - destruct H as (Hn & Ht & Hd & Hnone). repeat split; auto.
  - destruct H as [_ Hx]. pose proof (Hrec s Hx) as R. destruct Hx as [Ht Hd].
    rewrite R. repeat split; auto.
  - destruct H as [_ Hx]. pose proof (Hrec s Hx) as R. destruct Hx as [Ht Hd].
    rewrite R. repeat split; auto.
Qed.

Lemma discharge_series_ordered_complete_witness :
  outlet_times (state_of (run (steady 4 7) four_nodes 10 steady0))
  = map (sample_time (steady 4 7) four_nodes steady0)
        (seq 0 (recorded (state_of (run (steady 4 7) four_nodes 10 steady0)))) /\
  map Some (outlet_discharge (state_of (run (steady 4 7) four_nodes 10 steady0)))
  = map (sample_discharge (steady 4 7) four_nodes steady0)
        (seq 0 (recorded (state_of (run (steady 4 7) four_nodes 10 steady0)))) /\
  StronglySorted Qle (outlet_times (state_of (run (steady 4 7) four_nodes 10 steady0))).
Proof.
  destruct (discharge_series_ordered_complete (steady 4 7) four_nodes 10 steady0)
    as (_ & H1 & H2 & _ & H3 & _).
  - intros c r. rewrite steady_next_dt. vm_compute. discriminate.
  - split; [exact H1|]. split; [exact H2 | exact H3].
Defined.

(** C4, as stated, fails when the interval does not divide the run time:
    with [model_run_time = 100] and [time_step = 30] the slice 120 is still
    sub-stepped to and plotted, although it exceeds the run time. *)
Lemma checkpoint_beyond_run_time :
  exists s, run (steady 4 7) short_run 10 steady0 = Finished s /\
            map fig_slice (figures s) = [30; 60; 90; 120]%Z /\
            (model_run_time short_run < 120)%Z /\
            Qred (elapsed_time s) = 126.
Proof.
  eexists. split; [vm_compute; reflexivity|].
  repeat split.
Qed.

(** C4, amended: with a positive interval and a non-negative run time, a
    run that is given enough fuel finishes; its figures are those of the
    slices [time_step], [2 * time_step], ... up to the first multiple of
    [time_step] that is at least [model_run_time], in strictly increasing
    order; every figure is drawn at or after its slice, by a sub-step that
    started before the slice, so the overshoot is less than that sub-step's
    [dt]; the last slice is below [model_run_time + time_step] and the final
    elapsed time covers it and the run time. *)
Theorem checkpoints_in_order_cover_run_time
  (lib : Landlab) (p : Params) (dmin : Q) (c : OverlandFlow.t (Fields lib)) :
  0 < dmin -> dt_at_least lib dmin -> outlet_mapped lib p ->
  (0 < time_step p)%Z -> (0 <= model_run_time p)%Z ->
  exists fuel0, forall fuel, (fuel0 <= fuel)%nat ->
    exists s, run lib p fuel c = Finished s /\
      map fig_slice (figures s) = checkpoints (time_step p) (checkpoint_count p) /\
      StronglySorted Z.lt (map fig_slice (figures s)) /\
      Forall (within_one_dt (trace s)) (figures s) /\
      (model_run_time p <= Z.of_nat (checkpoint_count p) * time_step p
       < model_run_time p + time_step p)%Z /\
      (model_run_time p mod time_step p = 0 ->
       Z.of_nat (checkpoint_count p) * time_step p = model_run_time p)%Z /\
      Forall (fun ts => (ts <= Z.of_nat (checkpoint_count p) * time_step p)%Z)
             (map fig_slice (figures s)) /\
      inject_Z (Z.of_nat (checkpoint_count p) * time_step p) <= elapsed_time s /\
      inject_Z (model_run_time p) <= elapsed_time s.
Proof.
  intros Hd Hdt Hm Hs Hr.
  destruct (run_finishes lib p dmin c Hd Hdt Hm Hs Hr) as [fuel0 H].
  exists fuel0. intros fuel Hf. destruct (H fuel Hf) as (s & E & Hp & Hfig & Hw & He).
  pose proof (final_checkpoint_covers p Hs Hr) as Hfin.
  exists s. split; [exact E|]. split; [exact Hfig|].
  split; [rewrite Hfig; now apply checkpoints_increasing|].
  split; [exact Hw|]. split; [exact Hfin|].
  split; [now apply final_checkpoint_exact|].
  split.
  - rewrite Hfig. apply Forall_forall. intros ts Hin.
    apply checkpoints_bound in Hin; [lia | exact Hs].
  - split; [exact He|].
    eapply Qle_trans; [|exact He]. rewrite <- Zle_Qle. lia.
Qed.

Lemma checkpoints_in_order_cover_run_time_witness :
  exists fuel0, forall fuel, (fuel0 <= fuel)%nat ->
    exists s, run (steady 4 7) short_run fuel steady0 = Finished s /\
      map fig_slice (figures s) = [30; 60; 90; 120]%Z /\
      inject_Z 100 <= elapsed_time s.
Proof.
  destruct (checkpoints_in_order_cover_run_time
              (steady 4 7) short_run 7 steady0) as [fuel0 H].
  - reflexivity.
  - intros c r. rewrite steady_next_dt. apply Qle_refl.
  - apply steady_outlet_mapped. simpl. lia.
  - reflexivity.
  - discriminate.
  - exists fuel0. intros fuel Hf.
    destruct (H fuel Hf) as (s & E & Hfig & _ & _ & _ & _ & _ & _ & Hcov).
    exists s. split; [exact E|]. split; [exact Hfig | exact Hcov].
Defined.

(** C9: a finished sub-step appends the elapsed time after [dt] was added;
    so, while the component's [dt] is positive, at every point of every run
    each recorded time is the end time [start + dt] of an executed sub-step
    with [0 <= start] and [0 < dt]: it is positive, and no sample is
    recorded for elapsed time 0. *)
Theorem sample_times_follow_dt
  (lib : Landlab) (p : Params) (fuel : nat) (c : OverlandFlow.t (Fields lib)) :
  dt_positive lib ->
  (forall s s' : Loop lib, sub_step lib p s = Finished s' ->
     elapsed_time s' = elapsed_time s
                       + next_dt lib (component s) (intensity_at p (elapsed_time s)) /\
     outlet_times s' = outlet_times s ++ [elapsed_time s']) /\
  Forall (fun t => 0 < t /\ ~ t == 0 /\
                   exists e, In e (trace (state_of (run lib p fuel c))) /\
                             t = start_time e + step_dt e /\
                             0 <= start_time e /\ 0 < step_dt e)
         (outlet_times (state_of (run lib p fuel c))).
Proof.
  intro Hdt. split.
  - intros s s' E. unfold sub_step in E.
    destruct (nth_error _ _); [|discriminate].
    injection E as <-. simpl. split; reflexivity.
  - destruct (times_inv_run lib p fuel c Hdt) as [_ H].
    eapply Forall_weaken; [|exact H]. simpl.
    intros t (Ht & e & He). split; [exact Ht|]. split; [lra|].
    exists e. exact He.
Qed.

Lemma sample_times_follow_dt_witness :
  Forall (fun t => 0 < t)
    (outlet_times (state_of (run (steady 4 7) four_nodes 10 steady0))).
Proof.
  destruct (sample_times_follow_dt
              (steady 4 7) four_nodes 10 steady0) as [_ H].
  - intros c r. rewrite steady_next_dt. reflexivity.
  - eapply Forall_weaken; [|exact H]. intros t [Ht _]. exact Ht.
Defined.

(** C10: [overland_flow()] is called on the instance to which the
    intensity of the elapsed time before the sub-step was assigned, and the
    elapsed time is advanced only afterwards; that intensity is the
    configured one when the sub-step starts before [storm_duration] and zero
    when it starts at or after it.  So in every run the component goes
    through the sub-steps of [orbit], the trace lists them, and a component
    that logs what each call finds assigned logs the intensities of the
    trace.  A sub-step may therefore rain past the end of the storm: with
    the notebook's timing and a constant [dt] of 7 s, the call of the
    sub-step from 595 s to 602 s finds the configured intensity. *)
Theorem rainfall_decided_at_sub_step_start :
  (forall (lib : Landlab) (p : Params) (s : Loop lib),
     component (state_of (sub_step lib p s))
     = overland_flow lib (assign lib (component s) (intensity_at p (elapsed_time s))) /\
     OverlandFlow.rainfall_intensity
       (assign lib (component s) (intensity_at p (elapsed_time s)))
     = intensity_at p (elapsed_time s) /\
     elapsed_time (state_of (sub_step lib p s))
     = elapsed_time s + OverlandFlow.dt (component (state_of (sub_step lib p s)))) /\
  (forall (p : Params) (t : Q),
     (t < inject_Z (storm_duration p) -> intensity_at p t = rainfall_intensity p) /\
     (inject_Z (storm_duration p) <= t -> intensity_at p t = 0)) /\
  (forall (lib : Landlab) (p : Params) (fuel : nat) (c : OverlandFlow.t (Fields lib)),
     (component (state_of (run lib p fuel c)), elapsed_time (state_of (run lib p fuel c)))
     = orbit lib p (executed (state_of (run lib p fuel c))) (c, 0) /\
     trace (state_of (run lib p fuel c))
     = map (sub_step_entry lib p c) (seq 0 (executed (state_of (run lib p fuel c))))) /\
  (forall (lib : Landlab) (p : Params) (fuel : nat) (c : OverlandFlow.t (Fields lib))
          (e : SubStep),
     In e (trace (state_of (run lib p fuel c))) ->
     (start_time e < inject_Z (storm_duration p) ->
      intensity e = rainfall_intensity p) /\
     (inject_Z (storm_duration p) <= start_time e -> intensity e = 0)) /\
  (forall (nodes : nat) (h : Q) (p : Params) (fuel : nat),
     OverlandFlow.fields
       (component (state_of (run (recorder nodes h) p fuel recorder0)))
     = map (fun e => (step_dt e, intensity e))
           (trace (state_of (run (recorder nodes h) p fuel recorder0)))) /\
  (exists s e,
     run (recorder 4 7) four_nodes 10 recorder0 = Finished s /\
     nth_error (trace s) 85 = Some e /\
     nth_error (OverlandFlow.fields (component s)) 85
     = Some (7, rainfall_intensity four_nodes) /\
     start_time e < inject_Z (storm_duration four_nodes) /\
     inject_Z (storm_duration four_nodes) < end_time e /\
     Qred (start_time e) = 595 /\ Qred (end_time e) = 602 /\
     intensity e = rainfall_intensity four_nodes /\
     0 < rainfall_intensity four_nodes).
Proof.
  split; [|split; [|split; [|split; [|split]]]].
  - intros lib p s. split; [apply sub_step_component|]. split.
    + unfold assign. destruct (calc_time_step lib (component s)). reflexivity.
    + rewrite sub_step_elapsed, sub_step_component. reflexivity.
  - intros p t. split; [apply intensity_at_storm | apply intensity_at_dry].
  - intros lib p fuel c. apply followed_run.
  - intros lib p fuel c e Hin.
    pose proof (forcing_inv_run lib p fuel c) as H.
    unfold forcing_inv in H. rewrite Forall_forall in H.
    rewrite (H e Hin). split.
    + apply intensity_at_storm.
    + apply intensity_at_dry.
  - intros nodes h p fuel. apply recorder_log.
  - eexists. eexists. split; [vm_compute; reflexivity|].
    split; [vm_compute; reflexivity|].
    split; [vm_compute; reflexivity|].
    repeat split.
Qed.

(** ** The outlet index *)

Lemma checkpoint_count_positive (p : Params) :
  (0 < time_step p)%Z -> (0 < model_run_time p)%Z ->
  exists k, checkpoint_count p = S k.
Proof.
  intros Hs Hr. unfold checkpoint_count.
  assert (1 <= (model_run_time p + time_step p - 1) / time_step p)%Z as H.
  { apply Z.div_le_lower_bound; lia. }
  exists (Z.to_nat ((model_run_time p + time_step p - 1) / time_step p - 1)). lia.
Qed.

Lemma checkpoints_cons (step : Z) (k : nat) :
  checkpoints step (S k)
  = step :: map (fun i => (Z.of_nat i * step)%Z) (seq 2 k).
Proof.
  unfold checkpoints. cbn [seq map]. f_equal. lia.
Qed.

Lemma sub_step_unmapped (lib : Landlab) (p : Params) (s : Loop lib) :
  (forall c, (length (discharge_mapper lib c) <= outlet p)%nat) ->
  exists s', sub_step lib p s = Raised IndexError s' /\
             trace s' = trace s ++ [ {| start_time := elapsed_time s;
                                        step_dt := next_dt lib (component s)
                                                     (intensity_at p (elapsed_time s));
                                        intensity := intensity_at p (elapsed_time s) |} ] /\
             outlet_times s' = outlet_times s /\
             outlet_discharge s' = outlet_discharge s /\
             figures s' = figures s /\ printed s' = printed s.
Proof.
  intro Hlen.
  pose proof (sub_step_trace lib p s) as Htr. revert Htr. unfold sub_step.
  destruct (nth_error _ _) eqn:E.
  - exfalso. assert (nth_error (discharge_mapper lib (overland_flow lib (prepared lib p s)))
                       (outlet p) <> None) as Hn by congruence.
    apply nth_error_Some in Hn.
    specialize (Hlen (overland_flow lib (prepared lib p s))). lia.
  - simpl. intro Htr. eexists. split; [reflexivity|]. simpl. repeat split. exact Htr.
Qed.

(** C7, as stated, fails for the outlet index: on a grid of four nodes the
    constructor succeeds, the first sub-step runs (the elapsed time is 7 s
    and the trace has one entry) and only then the index 26267 raises, as an
    [IndexError], with no sample recorded. *)
Lemma outlet_outside_grid_not_caught_at_start :
  exists s, simulate (steady 4 7) notebook_params 10 tt = Some (Raised IndexError s) /\
            (length (discharge_mapper (steady 4 7) (component s))
             <= outlet notebook_params)%nat /\
            length (trace s) = 1%nat /\
            Qred (elapsed_time s) = 7 /\
            outlet_times s = [] /\ outlet_discharge s = [].
Proof.
  eexists. split; [vm_compute; reflexivity|].
  split; [apply Nat.leb_le; vm_compute; reflexivity|].
  repeat split.
Qed.

(** * The integrator behind the component

    [calc_time_step] and [overland_flow()] are methods of Landlab's
    [OverlandFlow]; their code is not in the repository.  The definitions of
    this module follow the contracts the specification gives for them
    (sections 3 and 4.1). *)

Module Integrator.

(** The boundary status of a node; the notebook closes the nodes outside
    the watershed and makes the outlet a fixed-value node. *)
Inductive status : Type :=
| CORE
| FIXED_VALUE
| CLOSED.

(** Modelled from the spec: the Grid of section 3, reduced to what the
    update uses: the boundary status and cell area of every node and the
    (head, tail) nodes of every link. *)
Record Grid : Type := {
  status_at_node : list status;
  cell_area : list Q;
  nodes_at_link : list (nat * nat)
}.

(** Modelled from the spec: the FlowState of section 3. *)
Record FlowState : Type := {
  water_depth : list Q;
  discharge : list Q;
  elapsed_time : Q;
  dt : Q
}.

(** Modelled from the spec: the value the stability criterion computes in
    double precision, finite or not (infinite, NaN). *)
Inductive computed : Type :=
| Finite (v : Q)
| NonFinite.

(** Modelled from the spec: the condition [compute_timestep] reports
    (section 4.1), with the elapsed time (section 7). *)
Inductive report : Type :=
| UnstableTimestep (at_time : Q).

(** Modelled from the spec: the configured maximum and the floor value of
    section 4.1. *)
Record Settings : Type := {
  dt_max : Q;
  dt_floor : Q
}.

Definition Qmin2 (a b : Q) : Q := if Qle_bool a b then a else b.

Definition Qclamp0 (a : Q) : Q := if Qle_bool 0 a then a else 0.

Section Scheme.

Variable cfg : Settings.

(** The stability criterion and the momentum update of the links are named
    by the specification but not given by it. *)
Variable stability_bound : Grid -> FlowState -> computed.
Variable momentum_update : Grid -> FlowState -> Q -> nat -> Q.

(** Modelled from the spec: [compute_timestep(grid, flow_state) -> dt] of
    section 4.1, whose code (Landlab's [calc_time_step]) is missing: the
    stability bound capped by the configured maximum; when the computed
    value is non-finite or not positive, the floor value, and the condition
    is reported. *)
Definition compute_timestep (g : Grid) (fs : FlowState) (log : list report)
  : Q * list report :=
  match stability_bound g fs with
  | Finite v =>
      if Qltb 0 v then (Qmin2 v (dt_max cfg), log)
      else (dt_floor cfg, log ++ [UnstableTimestep (elapsed_time fs)])
  | NonFinite => (dt_floor cfg, log ++ [UnstableTimestep (elapsed_time fs)])
  end.

Definition closed (g : Grid) (n : nat) : bool :=
  match nth_error (status_at_node g) n with
  | Some CLOSED => true
  | _ => false
  end.

(** Modelled from the spec: step 1 of [advance]: a link between two
    non-closed nodes gets the updated discharge; the others are left out of
    the computation. *)
Definition update_links (g : Grid) (fs : FlowState) (rain : Q) : list Q :=
  map (fun '(l, (ht, q)) =>
         if closed g (fst ht) || closed g (snd ht) then q
         else momentum_update g fs rain l)
      (combine (seq 0 (length (nodes_at_link g)))
               (combine (nodes_at_link g) (discharge fs))).

(** Modelled from the spec: inflow minus outflow at node [n], summed over
    the links; discharge is positive from head to tail. *)
Definition net_inflow (g : Grid) (q : list Q) (n : nat) : Q :=
  fold_right Qplus 0
    (map (fun '((h, t), ql) =>
            (if Nat.eqb t n then ql else 0) - (if Nat.eqb h n then ql else 0))
         (combine (nodes_at_link g) q)).

(** Modelled from the spec: steps 2 and 3 of [advance] at one node: mass
    conservation with rainfall and zero infiltration at a core node, kept
    non-negative; a fixed-value node keeps its depth; a closed node is at
    zero. *)
Definition update_depth (g : Grid) (q : list Q) (step rain : Q)
           (n : nat) (st : status) (area h : Q) : Q :=
  match st with
  | CORE => Qclamp0 (h + (net_inflow g q n / area) * step + rain * step - 0 * step)
  | FIXED_VALUE => h
  | CLOSED => 0
  end.

(** Modelled from the spec: [advance(grid, flow_state, rainfall_intensity)]
    of section 4.1, whose code (Landlab's [overland_flow()]) is missing:
    links, then depths by mass conservation with rainfall and zero
    infiltration, depths kept non-negative, closed nodes at zero, fixed-value
    nodes unchanged, and the elapsed time advanced by [dt]. *)
Definition advance (g : Grid) (fs : FlowState) (rain : Q) : FlowState :=
  let q := update_links g fs rain in
  {| water_depth :=
       map (fun '(n, (st, (area, h))) => update_depth g q (dt fs) rain n st area h)
           (combine (seq 0 (length (status_at_node g)))
                    (combine (status_at_node g)
                             (combine (cell_area g) (water_depth fs))));
     discharge := q;
     elapsed_time := elapsed_time fs + dt fs;
     dt := dt fs |}.

(** The fields of the grid before the first sub-step: every depth filled
    with 1e-12 by the notebook ([fill(1e-12)]), no discharge yet. *)
Definition initial_state (g : Grid) : FlowState :=
  {| water_depth := repeat (1 # 1000000000000) (length (status_at_node g));
     discharge := repeat 0 (length (nodes_at_link g));
     elapsed_time := 0;
     dt := dt_floor cfg |}.

End Scheme.

End Integrator.

(** ** The modelled integrator as a component of the driver *)

Record ModelFields : Type := {
  grid : Integrator.Grid;
  flow : Integrator.FlowState;
  reports : list Integrator.report
}.

Definition with_dt (v : Q) (fs : Integrator.FlowState) : Integrator.FlowState :=
  {| Integrator.water_depth := Integrator.water_depth fs;
     Integrator.discharge := Integrator.discharge fs;
     Integrator.elapsed_time := Integrator.elapsed_time fs;
     Integrator.dt := v |}.

Definition is_fixed_value (st : Integrator.status) : bool :=
  match st with
  | Integrator.FIXED_VALUE => true
  | _ => false
  end.

Section Modelled.

Variable cfg : Integrator.Settings.
Variable stability_bound : Integrator.Grid -> Integrator.FlowState -> Integrator.computed.
Variable momentum_update : Integrator.Grid -> Integrator.FlowState -> Q -> nat -> Q.

(** The mapping of link discharge to nodes is not given by the
    specification. *)
Variable mapper : Integrator.Grid -> Integrator.FlowState -> list Q.

(** Modelled from the spec: the component the notebook instantiates, whose
    code (Landlab's [OverlandFlow]) is missing: the initializer refuses a
    grid without a FIXED_VALUE node (section 7), [calc_time_step] is
    [compute_timestep] and appends its report, [overland_flow()] is
    [advance] with the [dt] and rainfall intensity assigned to the
    instance. *)
Definition modelled : Landlab :=
  {| Grid := Integrator.Grid;
     Fields := ModelFields;
     new := fun g _ =>
       if existsb is_fixed_value (Integrator.status_at_node g) then
         Some (OverlandFlow.Build
                 {| grid := g; flow := Integrator.initial_state cfg g; reports := [] |}
                 (Integrator.dt_floor cfg) 0)
       else None;
     calc_time_step := fun c =>
       let f := OverlandFlow.fields c in
       let (v, log) :=
         Integrator.compute_timestep cfg stability_bound (grid f) (flow f) (reports f) in
       (v, OverlandFlow.Build {| grid := grid f; flow := flow f; reports := log |}
             (OverlandFlow.dt c) (OverlandFlow.rainfall_intensity c));
     overland_flow := fun c =>
       let f := OverlandFlow.fields c in
       OverlandFlow.Build
         {| grid := grid f;
            flow := Integrator.advance momentum_update (grid f)
                      (with_dt (OverlandFlow.dt c) (flow f))
                      (OverlandFlow.rainfall_intensity c);
            reports := reports f |}
         (OverlandFlow.dt c) (OverlandFlow.rainfall_intensity c);
     discharge_mapper := fun c =>
       mapper (grid (OverlandFlow.fields c)) (flow (OverlandFlow.fields c)) |}.

End Modelled.

(** ** Properties of the modelled integrator *)

Lemma Qmin2_positive (a b : Q) : 0 < a -> 0 < b -> 0 < Integrator.Qmin2 a b.
Proof.
  intros Ha Hb. unfold Integrator.Qmin2. destruct (Qle_bool a b); assumption.
Qed.

Lemma Qclamp0_nonneg (a : Q) : 0 <= Integrator.Qclamp0 a.
Proof.
  unfold Integrator.Qclamp0. destruct (Qle_bool 0 a) eqn:E.
  - now apply Qle_bool_iff.
  - apply Qle_refl.
Qed.

Lemma compute_timestep_value cfg sb g fs (log1 log2 : list Integrator.report) :
  fst (Integrator.compute_timestep cfg sb g fs log1)
  = fst (Integrator.compute_timestep cfg sb g fs log2).
Proof.
  unfold Integrator.compute_timestep.
  destruct (sb g fs) as [v|]; [destruct (Qltb 0 v)|]; reflexivity.
Qed.

Lemma compute_timestep_pos cfg sb g fs log :
  0 < Integrator.dt_floor cfg -> 0 < Integrator.dt_max cfg ->
  0 < fst (Integrator.compute_timestep cfg sb g fs log).
Proof.
  intros Hf Hm. unfold Integrator.compute_timestep.
  destruct (sb g fs) as [v|]; [|exact Hf].
  destruct (Qltb 0 v) eqn:E; [|exact Hf].
  apply Qltb_true in E. simpl. now apply Qmin2_positive.
Qed.

Lemma modelled_next_dt cfg sb mu mapper c r :
  next_dt (modelled cfg sb mu mapper) c r
  = fst (Integrator.compute_timestep cfg sb (grid (OverlandFlow.fields c))
           (flow (OverlandFlow.fields c)) (reports (OverlandFlow.fields c))).
Proof.
  unfold next_dt, assign. simpl.
  destruct (Integrator.compute_timestep _ _ _ _ _). reflexivity.
Qed.

Lemma update_depth_nonneg g q step rain n st area h :
  0 <= h -> 0 <= Integrator.update_depth g q step rain n st area h.
Proof.
  intro Hh. destruct st; simpl.
  - apply Qclamp0_nonneg.
  - exact Hh.
  - apply Qle_refl.
Qed.

Lemma advance_nonneg mu g fs rain :
  Forall (fun h => 0 <= h) (Integrator.water_depth fs) ->
  Forall (fun h => 0 <= h) (Integrator.water_depth (Integrator.advance mu g fs rain)).
Proof.
  intro H. unfold Integrator.advance. simpl.
  apply Forall_forall. intros x Hx. apply in_map_iff in Hx.
  destruct Hx as ([n [st [area h]]] & <- & Hin).
  apply update_depth_nonneg.
  apply in_combine_r in Hin. apply in_combine_r in Hin. apply in_combine_r in Hin.
  rewrite Forall_forall in H. now apply H.
Qed.

Lemma initial_state_nonneg cfg g :
  Forall (fun h => 0 <= h) (Integrator.water_depth (Integrator.initial_state cfg g)).
Proof.
  simpl. apply Forall_forall. intros x Hx. apply repeat_spec in Hx. subst x.
  discriminate.
Qed.

(** Every executed sub-step of a run has a positive [dt] when the
    component's [dt] is positive. *)
Lemma trace_dt_positive (lib : Landlab) (p : Params) (fuel : nat) c :
  dt_positive lib ->
  Forall (fun e => 0 < step_dt e) (trace (state_of (run lib p fuel c))).
Proof.
  intro Hdt.
  apply (run_invariant lib p (fun s => Forall (fun e => 0 < step_dt e) (trace s))).
  - intros s H. rewrite sub_step_trace. apply Forall_snoc; [exact H|]. simpl.
    apply (Hdt (component s)).
  - intros ts s H. exact H.
  - intros ts s H. exact H.
  - constructor.
Qed.

(** ** A small instance of the modelled integrator

    Two nodes, a core node draining through one link into the fixed-value
    outlet; the stability bound is never usable, so every time step is the
    floor; the link carries a discharge of 5 whatever the state. *)

Definition two_nodes : Integrator.Grid :=
  {| Integrator.status_at_node := [Integrator.CORE; Integrator.FIXED_VALUE];
     Integrator.cell_area := [1; 1];
     Integrator.nodes_at_link := [(0%nat, 1%nat)] |}.

Definition coarse : Integrator.Settings :=
  {| Integrator.dt_max := 10; Integrator.dt_floor := 1 # 2 |}.

Definition no_bound (g : Integrator.Grid) (fs : Integrator.FlowState)
  : Integrator.computed := Integrator.NonFinite.

Definition drain (g : Integrator.Grid) (fs : Integrator.FlowState) (rain : Q) (l : nat)
  : Q := 5.

Definition outflow_only (g : Integrator.Grid) (fs : Integrator.FlowState) : list Q :=
  [0; 0; 0; 0].

(** Without the clamp the core node would go to [1e-12 - 5/2]. *)
Example advance_clamps :
  Integrator.water_depth
    (Integrator.advance drain two_nodes (Integrator.initial_state coarse two_nodes) 0)
  = [0; 1 # 1000000000000].
Proof.
  vm_compute. reflexivity.
Qed.

(** * The claims about the integrator *)

(** C5: [compute_timestep] returns the same value when it is called again
    on the same grid and flow state: the value does not depend on the
    reports made so far, and as a method of the component a second call
    (on the instance the first call left) returns what the first returned
    and leaves grid and flow state as they were. *)
Theorem compute_timestep_repeatable
  (cfg : Integrator.Settings)
  (sb : Integrator.Grid -> Integrator.FlowState -> Integrator.computed)
  (mu : Integrator.Grid -> Integrator.FlowState -> Q -> nat -> Q)
  (mapper : Integrator.Grid -> Integrator.FlowState -> list Q) :
  (forall g fs log,
     fst (Integrator.compute_timestep cfg sb g fs
            (snd (Integrator.compute_timestep cfg sb g fs log)))
     = fst (Integrator.compute_timestep cfg sb g fs log)) /\
  (forall c : OverlandFlow.t ModelFields,
     fst (calc_time_step (modelled cfg sb mu mapper)
            (snd (calc_time_step (modelled cfg sb mu mapper) c)))
     = fst (calc_time_step (modelled cfg sb mu mapper) c) /\
     flow (OverlandFlow.fields (snd (calc_time_step (modelled cfg sb mu mapper) c)))
     = flow (OverlandFlow.fields c) /\
     grid (OverlandFlow.fields (snd (calc_time_step (modelled cfg sb mu mapper) c)))
     = grid (OverlandFlow.fields c)).
Proof.
  split.
  - intros g fs log. apply compute_timestep_value.
  - intros c. simpl.
    destruct (Integrator.compute_timestep cfg sb (grid (OverlandFlow.fields c))
                (flow (OverlandFlow.fields c)) (reports (OverlandFlow.fields c)))
      as [v log] eqn:E1.
    simpl.
    destruct (Integrator.compute_timestep cfg sb (grid (OverlandFlow.fields c))
                (flow (OverlandFlow.fields c)) log) as [v' log'] eqn:E2.
    simpl. repeat split.
    pose proof (compute_timestep_value cfg sb (grid (OverlandFlow.fields c))
                  (flow (OverlandFlow.fields c)) log (reports (OverlandFlow.fields c))) as H.
    rewrite E1, E2 in H. exact H.
Qed.

(** C6: with a positive floor and a positive maximum, [compute_timestep]
    returns a positive value; when the stability bound is non-finite or not
    positive it returns the floor and appends one report, and still
    returns; so every sub-step of every run of the driver over the modelled
    component has a positive [dt]. *)
Theorem compute_timestep_positive
  (cfg : Integrator.Settings)
  (sb : Integrator.Grid -> Integrator.FlowState -> Integrator.computed)
  (mu : Integrator.Grid -> Integrator.FlowState -> Q -> nat -> Q)
  (mapper : Integrator.Grid -> Integrator.FlowState -> list Q) :
  0 < Integrator.dt_floor cfg -> 0 < Integrator.dt_max cfg ->
  (forall g fs log, 0 < fst (Integrator.compute_timestep cfg sb g fs log)) /\
  (forall g fs log,
     (sb g fs = Integrator.NonFinite \/
      exists v, sb g fs = Integrator.Finite v /\ v <= 0) ->
     Integrator.compute_timestep cfg sb g fs log
     = (Integrator.dt_floor cfg,
        log ++ [Integrator.UnstableTimestep (Integrator.elapsed_time fs)])) /\
  (forall p fuel c,
     Forall (fun e => 0 < step_dt e)
            (trace (state_of (run (modelled cfg sb mu mapper) p fuel c)))).
Proof.
  intros Hf Hm. split; [|split].
  - intros g fs log. now apply compute_timestep_pos.
  - intros g fs log [E | (v & E & Hv)]; unfold Integrator.compute_timestep; rewrite E.
    + reflexivity.
    + apply Qltb_false in Hv. rewrite Hv. reflexivity.
  - intros p fuel c. apply trace_dt_positive.
    intros c0 r. rewrite modelled_next_dt. now apply compute_timestep_pos.
Qed.

Lemma compute_timestep_positive_witness :
  0 < fst (Integrator.compute_timestep coarse no_bound two_nodes
             (Integrator.initial_state coarse two_nodes) []) /\
  Integrator.compute_timestep coarse no_bound two_nodes
    (Integrator.initial_state coarse two_nodes) []
  = (1 # 2, [Integrator.UnstableTimestep 0]).
Proof.
  destruct (compute_timestep_positive coarse no_bound drain outflow_only)
    as (H1 & H2 & _).
  - reflexivity.
  - reflexivity.
  - split; [apply H1|].
    apply (H2 two_nodes (Integrator.initial_state coarse two_nodes) []).
    left. reflexivity.
Defined.

(** C8: [advance] never leaves a negative depth: from non-negative depths
    it produces non-negative depths at every node, and in every run of the
    driver over the modelled component, started by the initializer on any
    grid, the depths are non-negative at every point reached, after any
    number of sub-steps. *)
Theorem water_depth_never_negative
  (cfg : Integrator.Settings)
  (sb : Integrator.Grid -> Integrator.FlowState -> Integrator.computed)
  (mu : Integrator.Grid -> Integrator.FlowState -> Q -> nat -> Q)
  (mapper : Integrator.Grid -> Integrator.FlowState -> list Q) :
  (forall g fs rain,
     Forall (fun h => 0 <= h) (Integrator.water_depth fs) ->
     Forall (fun h => 0 <= h)
            (Integrator.water_depth (Integrator.advance mu g fs rain))) /\
  (forall p fuel g,
     match simulate (modelled cfg sb mu mapper) p fuel g with
     | Some o =>
         Forall (fun h => 0 <= h)
                (Integrator.water_depth
                   (flow (OverlandFlow.fields (component (state_of o)))))
     | None => ~ In Integrator.FIXED_VALUE (Integrator.status_at_node g)
     end).
Proof.
  split.
  - intros g fs rain. apply advance_nonneg.
  - intros p fuel g. unfold simulate. simpl new.
    destruct (existsb is_fixed_value (Integrator.status_at_node g)) eqn:Ex.
    + apply (run_invariant (modelled cfg sb mu mapper) p
               (fun s => Forall (fun h => 0 <= h)
                           (Integrator.water_depth
                              (flow (OverlandFlow.fields (component s)))))).
      * intros s H. unfold sub_step.
        assert (Forall (fun h => 0 <= h)
                  (Integrator.water_depth
                     (flow (OverlandFlow.fields
                              (overland_flow (modelled cfg sb mu mapper)
                                 (prepared (modelled cfg sb mu mapper) p s)))))) as H1.
        { unfold prepared, assign. cbn -[Integrator.advance Integrator.compute_timestep].
          destruct (Integrator.compute_timestep _ _ _ _ _) as [v log].
          cbn -[Integrator.advance]. apply advance_nonneg. exact H. }
        destruct (nth_error _ _); exact H1.
      * intros ts s H. exact H.
      * intros ts s H. exact H.
      * exact (initial_state_nonneg cfg g).
    + intro Hin. assert (existsb is_fixed_value (Integrator.status_at_node g) = true) as E.
      { apply existsb_exists. exists Integrator.FIXED_VALUE. split; [exact Hin | reflexivity]. }
      congruence.
Qed.

(** ** Errors at initialization and at the first sample *)

Lemma no_fixed_value (st : list Integrator.status) :
  ~ In Integrator.FIXED_VALUE st -> existsb is_fixed_value st = false.
Proof.
  intro H. destruct (existsb is_fixed_value st) eqn:E; [|reflexivity].
  apply existsb_exists in E. destruct E as (x & Hin & Hx).
  destruct x; try discriminate. contradiction.
Qed.

Lemma some_fixed_value (st : list Integrator.status) :
  In Integrator.FIXED_VALUE st -> existsb is_fixed_value st = true.
Proof.
  intro H. apply existsb_exists. exists Integrator.FIXED_VALUE. split; [exact H | reflexivity].
Qed.

(** C7, amended: a grid without a FIXED_VALUE node is refused by the
    initializer (the error the specification calls
    InvalidBoundaryConfigurationError; here the constructor returns nothing)
    and the cell stops before any sub-step; the same holds whenever the
    constructor raises.  A grid with a FIXED_VALUE node is accepted whatever
    the outlet index is.  When the constructor succeeds and the outlet index
    is outside the mapped discharge array, then, for a positive run time
    and interval, slice 0 is printed, the first sub-step of the next slice
    is executed, and the sampling raises [IndexError] before anything is
    recorded or plotted. *)
Theorem outlet_index_checked_when_sampled
  (lib : Landlab) (p : Params) (g : Grid lib) (fuel : nat) :
  (0 < time_step p)%Z -> (0 < model_run_time p)%Z -> (0 < fuel)%nat ->
  (forall c, (length (discharge_mapper lib c) <= outlet p)%nat) ->
  (forall cfg sb mu mapper (g0 : Integrator.Grid) (fuel0 : nat),
     ~ In Integrator.FIXED_VALUE (Integrator.status_at_node g0) ->
     new (modelled cfg sb mu mapper) g0 true = None /\
     simulate (modelled cfg sb mu mapper) p fuel0 g0 = None) /\
  (forall cfg sb mu mapper (g0 : Integrator.Grid),
     In Integrator.FIXED_VALUE (Integrator.status_at_node g0) ->
     exists c0, new (modelled cfg sb mu mapper) g0 true = Some c0) /\
  (new lib g true = None -> simulate lib p fuel g = None) /\
  (forall c, new lib g true = Some c ->
     exists s, simulate lib p fuel g = Some (Raised IndexError s) /\
               (component s, elapsed_time s) = orbit lib p 1 (c, 0) /\
               length (trace s) = 1%nat /\
               printed s = [0; time_step p]%Z /\
               outlet_times s = [] /\ outlet_discharge s = [] /\ figures s = []).
Proof.
  intros Hs Hr Hfuel Hlen. split; [|split; [|split]].
  - intros cfg sb mu mapper g0 fuel0 Hno.
    assert (new (modelled cfg sb mu mapper) g0 true = None) as E.
    { simpl. now rewrite (no_fixed_value _ Hno). }
    split; [exact E|]. unfold simulate. now rewrite E.
  - intros cfg sb mu mapper g0 Hin. simpl. rewrite (some_fixed_value _ Hin).
    eexists; reflexivity.
  - intro E. unfold simulate. rewrite E. reflexivity.
  - intros c E. unfold simulate. rewrite E.
    assert (exists s', run lib p fuel c = Raised IndexError s' /\
                       length (trace s') = 1%nat /\
                       printed s' = [0; time_step p]%Z /\
                       outlet_times s' = [] /\ outlet_discharge s' = [] /\
                       figures s' = []) as (s' & Erun & Hone & Hrest).
    { unfold run. rewrite (range_slices p Hs ltac:(lia)).
      destruct (checkpoint_count_positive p Hs Hr) as [k ->].
      destruct fuel as [|fuel]; [lia|].
      rewrite checkpoints_cons. cbn [for_loop]. unfold slice_body at 1.
      assert (while_loop lib p (S fuel) 0 (print 0 (initial c))
              = Finished (print 0 (initial c))) as -> by reflexivity.
      change (0 <? 0)%Z with false. cbv iota.
      unfold slice_body at 1. cbn [while_loop].
      assert (Qltb (elapsed_time (print (time_step p) (print 0 (initial c))))
                   (inject_Z (time_step p)) = true) as ->.
      { apply Qltb_true. simpl.
        assert (inject_Z 0 < inject_Z (time_step p)) as H
            by (rewrite <- Zlt_Qlt; exact Hs).
        exact H. }
      destruct (sub_step_unmapped lib p (print (time_step p) (print 0 (initial c))) Hlen)
        as (s' & -> & Htr & Ht & Hd & Hf & Hp).
      exists s'. split; [reflexivity|].
      rewrite Htr, Ht, Hd, Hf, Hp. simpl. repeat split. }
    exists s'. rewrite Erun. split; [reflexivity|].
    pose proof (followed_run lib p fuel c) as [Ho _].
    rewrite Erun in Ho. unfold executed in Ho. simpl state_of in Ho.
    rewrite Hone in Ho.
    split; [exact Ho|]. split; [exact Hone | exact Hrest].
Qed.

(** The modelled component on the two-node grid, whose mapped array has
    four entries: the initializer accepts the grid and the notebook's
    outlet index is found missing only after the first sub-step. *)
Lemma outlet_index_checked_when_sampled_witness :
  exists s,
    simulate (modelled coarse no_bound drain outflow_only) notebook_params 10 two_nodes
    = Some (Raised IndexError s) /\
    length (trace s) = 1%nat /\
    outlet_times s = [].
Proof.
  destruct (outlet_index_checked_when_sampled
              (modelled coarse no_bound drain outflow_only) notebook_params two_nodes 10)
    as (_ & _ & _ & H).
  - reflexivity.
  - reflexivity.
  - lia.
  - intro c. apply Nat.leb_le. vm_compute. reflexivity.
  - destruct (H _ eq_refl) as (s & E & _ & Hl & _ & Ht & _).
    exists s. split; [exact E|]. split; [exact Hl | exact Ht].
Defined.

(** * Further properties of the driver loop *)

(** ** Schedules that take no sub-step *)

Lemma while_loop_reached (lib : Landlab) (p : Params) (fuel : nat) (ts : Z) (s : Loop lib) :
  inject_Z ts <= elapsed_time s -> while_loop lib p fuel ts s = Finished s.
Proof.
  intro H. apply Qltb_false in H. destruct fuel; simpl; rewrite H; reflexivity.
Qed.

Lemma for_loop_idle (lib : Landlab) (p : Params) (fuel : nat) (slices : list Z) :
  forall s : Loop lib,
    Forall (fun ts => (ts <= 0)%Z) slices -> 0 <= elapsed_time s ->
    for_loop lib p fuel slices s
    = Finished {| component := component s; elapsed_time := elapsed_time s;
                  outlet_discharge := outlet_discharge s;
                  outlet_times := outlet_times s;
                  printed := printed s ++ slices;
                  figures := figures s; trace := trace s |}.
Proof.
  induction slices as [|ts rest IH]; intros s Hall H0; simpl.
  - rewrite app_nil_r. destruct s; reflexivity.
  - inversion Hall as [|? ? Hts Hrest]; subst.
    unfold slice_body. rewrite while_loop_reached.
    + assert ((0 <? ts)%Z = false) as -> by (apply Z.ltb_ge; exact Hts).
      rewrite IH; [|exact Hrest | exact H0]. simpl.
      rewrite <- app_assoc. reflexivity.
    + simpl. eapply Qle_trans; [|exact H0].
      change 0 with (inject_Z 0). rewrite <- Zle_Qle. exact Hts.
Qed.

Lemma range_nonpositive (p : Params) :
  (time_step p < 0 \/ (0 < time_step p /\ model_run_time p <= 0))%Z ->
  exists slices,
    range 0 (model_run_time p + time_step p) (time_step p) = Some slices /\
    Forall (fun ts => (ts <= 0)%Z) slices.
Proof.
  intro H. unfold range.
  assert ((time_step p =? 0)%Z = false) as -> by (apply Z.eqb_neq; lia).
  eexists. split; [reflexivity|].
  apply Forall_forall. intros ts Hin. apply in_map_iff in Hin.
  destruct Hin as (i & <- & Hi). apply in_seq in Hi.
  destruct H as [Hneg | [Hpos Hr]].
  - nia.
  - unfold range_length in Hi.
    assert ((0 <? time_step p)%Z = true) as E by (apply Z.ltb_lt; exact Hpos).
    rewrite E in Hi.
    destruct (0 <? model_run_time p + time_step p)%Z eqn:E2.
    + apply Z.ltb_lt in E2.
      rewrite Z.div_small in Hi by lia.
      assert (i = 0%nat) as -> by lia. lia.
    + simpl in Hi. lia.
Qed.

(** X1: a zero interval makes [range] raise [ValueError] before anything is
    printed or stepped; a negative interval, or a run time that is not
    positive, makes the loop finish with whatever fuel, without calling
    the component: no sub-step, no sample, no figure, only slices that are
    not positive are printed. *)
Theorem schedule_without_sub_steps
  (lib : Landlab) (p : Params) (fuel : nat) (c : OverlandFlow.t (Fields lib)) :
  (time_step p = 0%Z -> run lib p fuel c = Raised ValueError (initial c)) /\
  ((time_step p < 0 \/ (0 < time_step p /\ model_run_time p <= 0))%Z ->
   exists s, run lib p fuel c = Finished s /\
             component s = c /\ trace s = [] /\
             outlet_times s = [] /\ outlet_discharge s = [] /\
             figures s = [] /\ Forall (fun ts => (ts <= 0)%Z) (printed s)).
Proof.
  split.
  - intro E. unfold run, range. rewrite E. reflexivity.
  - intro H. destruct (range_nonpositive p H) as (slices & E & Hall).
    unfold run. rewrite E.
    rewrite for_loop_idle; [|exact Hall | apply Qle_refl].
    eexists. split; [reflexivity|]. simpl. repeat split. exact Hall.
Qed.

Example backwards_schedule :
  exists s,
    run (steady 4 7)
        {| model_run_time := 100; storm_duration := 600; time_step := -30;
           rainfall_intensity := 1; outlet := 3 |} 0 steady0 = Finished s /\
    printed s = [] /\ trace s = [] /\ figures s = [].
Proof.
  eexists. split; [vm_compute; reflexivity|]. repeat split.
Qed.

(** ** What a figure shows *)

Definition prefix_of {A : Type} (a b : list A) : Prop := exists r, b = a ++ r.

Lemma prefix_of_refl {A : Type} (a : list A) : prefix_of a a.
Proof.
  exists []. now rewrite app_nil_r.
Qed.

Lemma prefix_of_snoc {A : Type} (a b : list A) (x : A) :
  prefix_of a b -> prefix_of a (b ++ [x]).
Proof.
  intros [r ->]. exists (r ++ [x]). now rewrite app_assoc.
Qed.

(** The two series have the same length; every figure plotted series of
    equal length that are initial parts of the present ones; the series of
    successive figures extend one another. *)
Definition snapshot_inv {lib : Landlab} (s : Loop lib) : Prop :=
  length (outlet_times s) = length (outlet_discharge s) /\
  Forall (fun f => length (fig_times f) = length (fig_discharge f) /\
                   prefix_of (fig_times f) (outlet_times s) /\
                   prefix_of (fig_discharge f) (outlet_discharge s))
         (figures s) /\
  StronglySorted prefix_of (map fig_times (figures s)).

Lemma snapshot_inv_sub_step (lib : Landlab) (p : Params) (s : Loop lib) :
  snapshot_inv s -> snapshot_inv (state_of (sub_step lib p s)).
Proof.
  intros (Hl & Hf & Hs). unfold sub_step.
  destruct (nth_error _ _); simpl; [|exact (conj Hl (conj Hf Hs))].
  unfold snapshot_inv; simpl. split; [|split; [|exact Hs]].
  - rewrite !length_app, Hl. reflexivity.
  - eapply Forall_weaken; [|exact Hf]. simpl.
    intros f (H1 & H2 & H3). split; [exact H1|].
    split; now apply prefix_of_snoc.
Qed.

Lemma snapshot_inv_savefig (lib : Landlab) (ts : Z) (s : Loop lib) :
  snapshot_inv s -> snapshot_inv (savefig ts s).
Proof.
  intros (Hl & Hf & Hs). unfold snapshot_inv; simpl. split; [exact Hl|]. split.
  - apply Forall_snoc; [exact Hf|]. simpl.
    split; [exact Hl|]. split; apply prefix_of_refl.
  - rewrite map_app. simpl. apply StronglySorted_snoc; [exact Hs|].
    apply Forall_forall. intros x Hx. apply in_map_iff in Hx.
    destruct Hx as (f & <- & Hin). rewrite Forall_forall in Hf.
    destruct (Hf f Hin) as (_ & H & _). exact H.
Qed.

(** X2: at every point of every run, each saved figure plotted two series
    of the same length that are initial parts of the series recorded up to
    now, and each figure's series is an initial part of the series of every
    later figure: the figures are cumulative and nothing already plotted is
    changed afterwards. *)
Theorem figures_are_cumulative
  (lib : Landlab) (p : Params) (fuel : nat) (c : OverlandFlow.t (Fields lib)) :
  Forall (fun f => length (fig_times f) = length (fig_discharge f) /\
                   prefix_of (fig_times f)
                     (outlet_times (state_of (run lib p fuel c))) /\
                   prefix_of (fig_discharge f)
                     (outlet_discharge (state_of (run lib p fuel c))))
         (figures (state_of (run lib p fuel c))) /\
  StronglySorted prefix_of (map fig_times (figures (state_of (run lib p fuel c)))).
Proof.
  assert (snapshot_inv (state_of (run lib p fuel c))) as (_ & Hf & Hs).
  { apply run_invariant.
    - apply snapshot_inv_sub_step.
    - intros ts s H. exact H.
    - intros ts s. apply snapshot_inv_savefig.
    - unfold snapshot_inv; simpl. repeat split; constructor. }
  split; assumption.
Qed.

(** Recorded times never exceed the elapsed time; a figure's series holds
    the times up to the moment it was drawn, and what was recorded since
    is later. *)
Definition shown_inv {lib : Landlab} (s : Loop lib) : Prop :=
  Forall (fun t => t <= elapsed_time s) (outlet_times s) /\
  Forall (fun f => fig_elapsed f <= elapsed_time s /\
                   exists r, outlet_times s = fig_times f ++ r /\
                             Forall (fun t => t <= fig_elapsed f) (fig_times f) /\
                             Forall (fun t => fig_elapsed f < t) r)
         (figures s).

Lemma shown_inv_sub_step (lib : Landlab) (p : Params) (s : Loop lib) :
  dt_positive lib -> shown_inv s -> shown_inv (state_of (sub_step lib p s)).
Proof.
  intros Hdt (Ht & Hf).
  pose proof (Hdt (component s) (intensity_at p (elapsed_time s))) as Hd.
  unfold next_dt in Hd. fold (prepared lib p s) in Hd.
  set (d := OverlandFlow.dt (overland_flow lib (prepared lib p s))) in *.
  unfold sub_step. fold d. destruct (nth_error _ _); unfold shown_inv; simpl.
  - split.
    + apply Forall_snoc; [|apply Qle_refl].
      eapply Forall_weaken; [|exact Ht]. simpl. intros x Hx. lra.
    + eapply Forall_weaken; [|exact Hf]. simpl.
      intros f (He & r & E & H1 & H2). split; [lra|].
      exists (r ++ [elapsed_time s + d]). split; [rewrite E, app_assoc; reflexivity|].
      split; [exact H1|]. apply Forall_snoc; [exact H2 | lra].
  - split.
    + eapply Forall_weaken; [|exact Ht]. simpl. intros x Hx. lra.
    + eapply Forall_weaken; [|exact Hf]. simpl.
      intros f (He & r & E & H1 & H2). split; [lra|]. exists r. auto.
Qed.

Lemma shown_inv_savefig (lib : Landlab) (ts : Z) (s : Loop lib) :
  shown_inv s -> shown_inv (savefig ts s).
Proof.
  intros (Ht & Hf). unfold shown_inv; simpl. split; [exact Ht|].
  apply Forall_snoc; [exact Hf|]. simpl. split; [apply Qle_refl|].
  exists []. rewrite app_nil_r. repeat split; [exact Ht | constructor].
Qed.

(** X3: while the component's [dt] is positive, a figure shows exactly the
    samples recorded up to the moment it was drawn: of the times recorded by
    any later point of the run, those in the figure are those not after the
    figure's elapsed time. *)
Theorem figure_shows_samples_so_far
  (lib : Landlab) (p : Params) (fuel : nat) (c : OverlandFlow.t (Fields lib)) :
  dt_positive lib ->
  Forall (fun f =>
            Forall (fun t => In t (fig_times f) <-> t <= fig_elapsed f)
                   (outlet_times (state_of (run lib p fuel c))))
         (figures (state_of (run lib p fuel c))).
Proof.
  intro Hdt.
  assert (shown_inv (state_of (run lib p fuel c))) as (_ & Hf).
  { apply run_invariant.
    - intros s. now apply shown_inv_sub_step.
    - intros ts s H. exact H.
    - intros ts s. apply shown_inv_savefig.
    - split; constructor. }
  eapply Forall_weaken; [|exact Hf]. simpl.
  intros f (_ & r & E & H1 & H2). rewrite E.
  apply Forall_forall. intros t Hin. split.
  - intro Hf1. rewrite Forall_forall in H1. now apply H1.
  - intro Hle. apply in_app_or in Hin. destruct Hin as [Hin | Hin]; [exact Hin|].
    rewrite Forall_forall in H2. specialize (H2 t Hin). lra.
Qed.

Lemma figure_shows_samples_so_far_witness :
  Forall (fun f =>
            Forall (fun t => In t (fig_times f) <-> t <= fig_elapsed f)
                   (outlet_times (state_of (run (steady 4 7) short_run 5 steady0))))
         (figures (state_of (run (steady 4 7) short_run 5 steady0))).
Proof.
  apply (figure_shows_samples_so_far (steady 4 7) short_run 5 steady0).
  intros c r. rewrite steady_next_dt. reflexivity.
Defined.

(** * The watershed boundary (Step 2)

    [dem_field[~watershed_mask] = -9999.0], then every node whose elevation
    [np.isclose] finds at -9999.0 is closed, then the outlet is made a
    fixed-value node.  The node arrays are lists; an assignment through a
    boolean array or an index raises [IndexError] when the shapes do not
    match or the index is outside the array, and what was assigned before
    stays assigned. *)

(** [a[mask] = v] for a boolean array [mask]. *)
Definition assign_where {A : Type} (a : list A) (mask : list bool) (v : A)
  : option (list A) :=
  if Nat.eqb (length mask) (length a) then
    Some (map (fun xm : A * bool => if snd xm then v else fst xm) (combine a mask))
  else None.

(** [a[i] = v] for an index [i] that is not negative. *)
Definition assign_at {A : Type} (a : list A) (i : nat) (v : A) : option (list A) :=
  if Nat.ltb i (length a) then Some (firstn i a ++ v :: skipn (S i) a) else None.

Definition nodata : Q := -9999.

Section Boundary.

(** The status codes are Landlab's; so is the tolerance of [np.isclose]. *)
Variable Status : Type.
Variable BC_NODE_IS_CLOSED : Status.
Variable BC_NODE_IS_FIXED_VALUE : Status.
Variable isclose : Q -> Q -> bool.

Record NodeFields : Type := {
  dem_field : list Q;
  status_at_node : list Status
}.

Definition set_watershed_boundary
  (g : NodeFields) (watershed_mask : list bool) (outlet_node : nat)
  : NodeFields * option exn :=
  match assign_where (dem_field g) (map negb watershed_mask) nodata with
  | None => (g, Some IndexError)
  | Some dem =>
      match assign_where (status_at_node g)
                         (map (fun z => isclose z nodata) dem) BC_NODE_IS_CLOSED with
      | None => ({| dem_field := dem; status_at_node := status_at_node g |},
                 Some IndexError)
      | Some st =>
          match assign_at st outlet_node BC_NODE_IS_FIXED_VALUE with
          | None => ({| dem_field := dem; status_at_node := st |}, Some IndexError)
          | Some st' => ({| dem_field := dem; status_at_node := st' |}, None)
          end
      end
  end.

End Boundary.

Arguments dem_field {Status} _.
Arguments status_at_node {Status} _.

Lemma nth_error_combine {A B : Type} (a : list A) (b : list B) (i : nat) :
  nth_error (combine a b) i
  = match nth_error a i, nth_error b i with
    | Some x, Some y => Some (x, y)
    | _, _ => None
    end.
Proof.
  revert b i. induction a as [|x a IH]; intros b i.
  - destruct i; reflexivity.
  - destruct b as [|y b]; destruct i as [|i]; simpl; try reflexivity.
    + destruct (nth_error a i); reflexivity.
    + apply IH.
Qed.

Lemma assign_where_length {A : Type} (a : list A) (mask : list bool) (v : A) a' :
  assign_where a mask v = Some a' -> length mask = length a /\ length a' = length a.
Proof.
  unfold assign_where. destruct (Nat.eqb _ _) eqn:E; [|discriminate].
  apply Nat.eqb_eq in E. intro H; injection H as <-.
  split; [exact E|]. rewrite length_map, length_combine. lia.
Qed.

Lemma assign_where_nth {A : Type} (a : list A) (mask : list bool) (v : A) a' (i : nat) :
  assign_where a mask v = Some a' ->
  nth_error a' i
  = match nth_error a i, nth_error mask i with
    | Some x, Some m => Some (if m then v else x)
    | _, _ => None
    end.
Proof.
  unfold assign_where. destruct (Nat.eqb _ _); [|discriminate].
  intro H; injection H as <-.
  rewrite nth_error_map, nth_error_combine.
  destruct (nth_error a i), (nth_error mask i); reflexivity.
Qed.

Lemma assign_at_length {A : Type} (a : list A) (i : nat) (v : A) a' :
  assign_at a i v = Some a' -> (i < length a)%nat /\ length a' = length a.
Proof.
  unfold assign_at. destruct (Nat.ltb _ _) eqn:E; [|discriminate].
  apply Nat.ltb_lt in E. intro H; injection H as <-.
  split; [exact E|].
  rewrite length_app, length_firstn.
  pose proof (length_skipn (S i) a) as Hk. simpl in Hk |- *. lia.
Qed.

Lemma assign_at_nth {A : Type} (a : list A) (i : nat) (v : A) a' (j : nat) :
  assign_at a i v = Some a' ->
  nth_error a' j = if Nat.eqb j i then Some v else nth_error a j.
Proof.
  unfold assign_at. destruct (Nat.ltb _ _) eqn:E; [|discriminate].
  apply Nat.ltb_lt in E. intro H; injection H as <-.
  revert i j E. induction a as [|x a IH]; intros i j E; simpl in E; [lia|].
  destruct i as [|i]; destruct j as [|j]; simpl; try reflexivity.
  apply IH. lia.
Qed.

(** X6: the three assignments succeed exactly when the mask and the status
    array have the length of the elevation array and the outlet index is
    inside it, and then neither array changes its length; a mask of another
    length raises [IndexError] with nothing changed. *)
Theorem watershed_boundary_shapes
  (Status : Type) (closed_code fixed_code : Status) (isclose : Q -> Q -> bool)
  (g : NodeFields Status) (watershed_mask : list bool) (outlet_node : nat) :
  (snd (set_watershed_boundary Status closed_code fixed_code isclose
          g watershed_mask outlet_node) = None
   <-> length watershed_mask = length (dem_field g) /\
       length (status_at_node g) = length (dem_field g) /\
       (outlet_node < length (dem_field g))%nat) /\
  (snd (set_watershed_boundary Status closed_code fixed_code isclose
          g watershed_mask outlet_node) = None ->
   length (dem_field (fst (set_watershed_boundary Status closed_code fixed_code
                             isclose g watershed_mask outlet_node)))
   = length (dem_field g) /\
   length (status_at_node (fst (set_watershed_boundary Status closed_code fixed_code
                                  isclose g watershed_mask outlet_node)))
   = length (dem_field g)) /\
  (length watershed_mask <> length (dem_field g) ->
   set_watershed_boundary Status closed_code fixed_code isclose
     g watershed_mask outlet_node = (g, Some IndexError)).
Proof.
  unfold set_watershed_boundary.
  destruct (assign_where (dem_field g) (map negb watershed_mask) nodata)
    as [dem|] eqn:E1.
  - destruct (assign_where_length _ _ _ _ E1) as [L1 L1'].
    rewrite length_map in L1.
    destruct (assign_where (status_at_node g) (map (fun z => isclose z nodata) dem)
                closed_code) as [st|] eqn:E2.
    + destruct (assign_where_length _ _ _ _ E2) as [L2 L2'].
      rewrite length_map in L2.
      destruct (assign_at st outlet_node fixed_code) as [st'|] eqn:E3.
      * destruct (assign_at_length _ _ _ _ E3) as [L3 L3']. simpl.
        split; [split; [intros _; lia | reflexivity]|].
        split; [intros _; lia | intro H; contradiction].
      * simpl. unfold assign_at in E3.
        destruct (Nat.ltb outlet_node (length st)) eqn:E4; [discriminate|].
        apply Nat.ltb_ge in E4.
        split; [split; [discriminate | intros (_ & _ & H); lia]|].
        split; [discriminate | intro H; contradiction].
    + simpl. unfold assign_where in E2. rewrite length_map, L1' in E2.
      destruct (Nat.eqb (length (dem_field g)) (length (status_at_node g))) eqn:E4;
        [discriminate|].
      apply Nat.eqb_neq in E4.
      split; [split; [discriminate | intros (_ & H & _); lia]|].
      split; [discriminate | intro H; contradiction].
  - simpl. unfold assign_where in E1. rewrite length_map in E1.
    destruct (Nat.eqb (length watershed_mask) (length (dem_field g))) eqn:E;
      [discriminate|].
    apply Nat.eqb_neq in E.
    split; [split; [discriminate | intros (H & _); contradiction]|].
    split; [discriminate | reflexivity].
Qed.

Lemma nth_error_in_range {A : Type} (l : list A) (i : nat) :
  (i < length l)%nat -> exists x, nth_error l i = Some x.
Proof.
  intro H. destruct (nth_error l i) eqn:E; [eauto|].
  apply nth_error_None in E. lia.
Qed.

(** X7: when the three assignments succeed and [isclose] finds -9999.0
    close to itself: the outlet is a fixed-value node, whether or not the
    mask contains it; every other node outside the mask has elevation
    -9999.0 and is closed; every other node inside the mask keeps its
    elevation, and keeps its status unless that elevation is itself close to
    -9999.0, in which case it is closed as well. *)
Theorem watershed_boundary_nodes
  (Status : Type) (closed_code fixed_code : Status) (isclose : Q -> Q -> bool)
  (g g' : NodeFields Status) (watershed_mask : list bool) (outlet_node : nat) :
  isclose nodata nodata = true ->
  set_watershed_boundary Status closed_code fixed_code isclose
    g watershed_mask outlet_node = (g', None) ->
  nth_error (status_at_node g') outlet_node = Some fixed_code /\
  (forall i, i <> outlet_node -> nth_error watershed_mask i = Some false ->
     nth_error (dem_field g') i = Some nodata /\
     nth_error (status_at_node g') i = Some closed_code) /\
  (forall i z st, i <> outlet_node -> nth_error watershed_mask i = Some true ->
     nth_error (dem_field g) i = Some z ->
     nth_error (status_at_node g) i = Some st ->
     nth_error (dem_field g') i = Some z /\
     nth_error (status_at_node g') i
     = Some (if isclose z nodata then closed_code else st)).
Proof.
  intros Hclose. unfold set_watershed_boundary.
  destruct (assign_where (dem_field g) (map negb watershed_mask) nodata)
    as [dem|] eqn:E1; [|discriminate].
  destruct (assign_where (status_at_node g) (map (fun z => isclose z nodata) dem)
              closed_code) as [st1|] eqn:E2; [|discriminate].
  destruct (assign_at st1 outlet_node fixed_code) as [st2|] eqn:E3; [|discriminate].
  intro H; injection H as <-. simpl.
  destruct (assign_where_length _ _ _ _ E1) as [L1 L1'].
  destruct (assign_where_length _ _ _ _ E2) as [L2 L2'].
  rewrite length_map in L1, L2.
  split; [|split].
  - rewrite (assign_at_nth _ _ _ _ outlet_node E3), Nat.eqb_refl. reflexivity.
  - intros i Hi Hm.
    assert (i < length watershed_mask)%nat as Hlt
        by (apply nth_error_Some; congruence).
    destruct (nth_error_in_range (dem_field g) i ltac:(lia)) as [z Hz].
    destruct (nth_error_in_range (status_at_node g) i ltac:(lia)) as [s0 Hs0].
    assert (nth_error dem i = Some nodata) as Hd.
    { rewrite (assign_where_nth _ _ _ _ i E1), Hz, nth_error_map, Hm. reflexivity. }
    split; [exact Hd|].
    rewrite (assign_at_nth _ _ _ _ i E3).
    assert (Nat.eqb i outlet_node = false) as -> by (apply Nat.eqb_neq; exact Hi).
    rewrite (assign_where_nth _ _ _ _ i E2), Hs0, nth_error_map, Hd. simpl.
    rewrite Hclose. reflexivity.
  - intros i z s0 Hi Hm Hz Hs0.
    assert (nth_error dem i = Some z) as Hd.
    { rewrite (assign_where_nth _ _ _ _ i E1), Hz, nth_error_map, Hm. reflexivity. }
    split; [exact Hd|].
    rewrite (assign_at_nth _ _ _ _ i E3).
    assert (Nat.eqb i outlet_node = false) as -> by (apply Nat.eqb_neq; exact Hi).
    rewrite (assign_where_nth _ _ _ _ i E2), Hs0, nth_error_map, Hd. simpl.
    destruct (isclose z nodata); reflexivity.
Qed.

(** [np.isclose(a, b)] with its default tolerances:
    [|a - b| <= 1e-8 + 1e-5 * |b|]. *)
Definition isclose_default (a b : Q) : bool :=
  Qle_bool (Qabs (a - b)) (1e-8 + 1e-5 * Qabs b).

(** Five nodes; the watershed is nodes 1, 2 and 3 but the outlet is node 4;
    node 3 lies at -9999.05 m. *)
Definition five_nodes : NodeFields Integrator.status :=
  {| dem_field := [1700; 1650; 1600; -9999.05; 1500];
     status_at_node := [Integrator.FIXED_VALUE; Integrator.CORE; Integrator.CORE;
                        Integrator.CORE; Integrator.FIXED_VALUE] |}.

Example five_nodes_boundary :
  set_watershed_boundary Integrator.status Integrator.CLOSED Integrator.FIXED_VALUE
    isclose_default five_nodes [false; true; true; true; false] 4
  = ({| dem_field := [nodata; 1650; 1600; -9999.05; nodata];
        status_at_node := [Integrator.CLOSED; Integrator.CORE; Integrator.CORE;
                           Integrator.CLOSED; Integrator.FIXED_VALUE] |}, None).
Proof.
  vm_compute. reflexivity.
Qed.

Lemma watershed_boundary_nodes_witness :
  nth_error
    (status_at_node
       (fst (set_watershed_boundary Integrator.status Integrator.CLOSED
               Integrator.FIXED_VALUE isclose_default five_nodes
               [false; true; true; true; false] 4))) 4
  = Some Integrator.FIXED_VALUE.
Proof.
  rewrite five_nodes_boundary.
  destruct (watershed_boundary_nodes Integrator.status Integrator.CLOSED
              Integrator.FIXED_VALUE isclose_default five_nodes _
              [false; true; true; true; false] 4 eq_refl five_nodes_boundary)
    as [H _].
  exact H.
Defined.

(** * Folders (Initial Setup)

    The cell builds three folder paths under the working directory and
    creates those that are not directories yet.  Paths are strings; the file
    system is a map from paths to what is there. *)

Import String.StringSyntax Ascii.AsciiSyntax.
Delimit Scope string_scope with string.
Delimit Scope char_scope with char.

Definition starts_with_slash (s : String.string) : bool :=
  match s with
  | String.String c _ => Ascii.eqb c "/"%char
  | String.EmptyString => false
  end.

Fixpoint ends_with_slash (s : String.string) : bool :=
  match s with
  | String.EmptyString => false
  | String.String c String.EmptyString => Ascii.eqb c "/"%char
  | String.String _ rest => ends_with_slash rest
  end.

(** [os.path.join(a, b)] on a POSIX system. *)
Definition join (a b : String.string) : String.string :=
  if starts_with_slash b then b
  else if String.eqb a ""%string || ends_with_slash a then String.append a b
  else String.append a (String.String "/"%char b).

Fixpoint has_slash (s : String.string) : bool :=
  match s with
  | String.EmptyString => false
  | String.String c rest => Ascii.eqb c "/"%char || has_slash rest
  end.

(** [p[:p.rfind('/') + 1]] *)
Fixpoint up_to_last_slash (s : String.string) : String.string :=
  match s with
  | String.EmptyString => String.EmptyString
  | String.String c rest =>
      if has_slash rest then String.String c (up_to_last_slash rest)
      else if Ascii.eqb c "/"%char then String.String c String.EmptyString
      else String.EmptyString
  end.

Fixpoint all_slashes (s : String.string) : bool :=
  match s with
  | String.EmptyString => true
  | String.String c rest => Ascii.eqb c "/"%char && all_slashes rest
  end.

(** [s.rstrip('/')] *)
Fixpoint rstrip_slashes (s : String.string) : String.string :=
  match s with
  | String.EmptyString => String.EmptyString
  | String.String c rest =>
      match rstrip_slashes rest with
      | String.EmptyString =>
          if Ascii.eqb c "/"%char then String.EmptyString
          else String.String c String.EmptyString
      | kept => String.String c kept
      end
  end.

(** [os.path.dirname(p)] on a POSIX system: the part before the last
    slash, without trailing slashes unless it consists of slashes only. *)
Definition dirname (p : String.string) : String.string :=
  let head := up_to_last_slash p in
  if all_slashes head then head else rstrip_slashes head.

Example dirname_examples :
  dirname "/home/user/results_calwood"%string = "/home/user"%string /\
  dirname "/home/user/config_files_a/b"%string = "/home/user/config_files_a"%string /\
  dirname "/results"%string = "/"%string /\
  dirname "results"%string = ""%string.
Proof.
  repeat split.
Qed.

Inductive node : Type :=
| Directory
| RegularFile.

Definition FileSystem : Type := String.string -> option node.

Definition isdir (fs : FileSystem) (path : String.string) : bool :=
  match fs path with
  | Some Directory => true
  | _ => false
  end.

Inductive OSError : Type :=
| FileExistsError
| FileNotFoundError
| NotADirectoryError.

(** What is wrong with the parent of [path], if anything: it must be a
    directory; a path without a slash lies in the working directory, which
    is there. *)
Definition parent_error (fs : FileSystem) (path : String.string) : option OSError :=
  if String.eqb (dirname path) ""%string then None
  else
    match fs (dirname path) with
    | Some Directory => None
    | Some RegularFile => Some NotADirectoryError
    | None => Some FileNotFoundError
    end.

(** [os.mkdir(path)]: the parent must be a directory and the path must not
    exist. *)
Definition mkdir (fs : FileSystem) (path : String.string) : FileSystem + OSError :=
  match parent_error fs path with
  | Some e => inr e
  | None =>
      match fs path with
      | Some _ => inr FileExistsError
      | None => inl (fun q => if String.eqb q path then Some Directory else fs q)
      end
  end.

Definition config_dir (cwd study_area : String.string) : String.string :=
  join cwd (String.append "config_files_"%string study_area).

Definition results_dir (cwd study_area : String.string) : String.string :=
  join cwd (String.append "results_"%string study_area).

Definition cache_dir (cwd study_area : String.string) : String.string :=
  join cwd (String.append "cache_"%string study_area).

(** The [for folder in [...]] loop: the file system, the folders printed
    and the error raised, if any. *)
Fixpoint create_folders (folders : list String.string) (fs : FileSystem)
         (out : list String.string)
  : FileSystem * list String.string * option OSError :=
  match folders with
  | [] => (fs, out, None)
  | folder :: rest =>
      if isdir fs folder then create_folders rest fs out
      else
        match mkdir fs folder with
        | inr e => (fs, out, Some e)
        | inl fs' => create_folders rest fs' (out ++ [folder])
        end
  end.

Definition setup_folders (cwd study_area : String.string) (fs : FileSystem)
  : FileSystem * list String.string * option OSError :=
  create_folders [config_dir cwd study_area; results_dir cwd study_area;
                  cache_dir cwd study_area] fs [].

Lemma append_cancel_l (a b c : String.string) :
  String.append a b = String.append a c -> b = c.
Proof.
  induction a as [|x a IH]; simpl; intro H; [exact H|].
  injection H as H. now apply IH.
Qed.



Lemma isdir_mkdir_other (fs fs' : FileSystem) (p q : String.string) :
  mkdir fs p = inl fs' -> q <> p -> fs' q = fs q.
Proof.
  unfold mkdir. destruct (parent_error fs p); [discriminate|].
  destruct (fs p); [discriminate|].
  intro H; injection H as <-. intro Hq.
  apply String.eqb_neq in Hq. now rewrite Hq.
Qed.

Lemma mkdir_made (fs fs' : FileSystem) (p : String.string) :
  mkdir fs p = inl fs' -> fs p = None /\ fs' p = Some Directory.
Proof.
  unfold mkdir. destruct (parent_error fs p); [discriminate|].
  destruct (fs p) eqn:E; [discriminate|].
  intro H; injection H as <-. now rewrite String.eqb_refl.
Qed.



Lemma mkdir_keeps (fs fs' : FileSystem) (p : String.string) :
  mkdir fs p = inl fs' -> forall q x, fs q = Some x -> fs' q = Some x.
Proof.
  intros Em q x Hq. destruct (mkdir_made _ _ _ Em) as [Hnone _].
  destruct (String.eqb_spec q p) as [-> | Hne]; [congruence|].
  now rewrite (isdir_mkdir_other _ _ _ _ Em Hne).
Qed.


Lemma create_folders_present (folders : list String.string) :
  forall (fs : FileSystem) (out : list String.string),
    (forall p, In p folders -> isdir fs p = true) ->
    create_folders folders fs out = (fs, out, None).
Proof.
  induction folders as [|folder rest IH]; intros fs out H; simpl; [reflexivity|].
  rewrite (H folder (or_introl eq_refl)). apply IH. intros p Hp. apply H. now right.
Qed.

Lemma create_folders_keeps (folders : list String.string) :
  forall (fs fs' : FileSystem) out out' e,
    create_folders folders fs out = (fs', out', e) ->
    forall q x, fs q = Some x -> fs' q = Some x.
Proof.
  induction folders as [|folder rest IH]; intros fs fs' out out' e; simpl.
  - intro H; injection H as <- <- <-. auto.
  - destruct (isdir fs folder); [apply IH|].
    destruct (mkdir fs folder) as [fs1 | e1] eqn:Em.
    + intros H q x Hq. apply (IH _ _ _ _ _ H). now apply (mkdir_keeps _ _ _ Em).
    + intro H; injection H as <- <- <-. auto.
Qed.

Lemma create_folders_made (folders : list String.string) :
  forall (fs fs' : FileSystem) out out',
    create_folders folders fs out = (fs', out', None) ->
    forall p, In p folders -> isdir fs' p = true.
Proof.
  induction folders as [|folder rest IH]; intros fs fs' out out'; simpl.
  - intros _ p [].
  - destruct (isdir fs folder) eqn:Ed.
    + intros H p [<- | Hp]; [|now apply (IH _ _ _ _ H)].
      unfold isdir in *. destruct (fs folder) as [[|]|] eqn:Ef; try discriminate.
      now rewrite (create_folders_keeps _ _ _ _ _ _ H _ _ Ef).
    + destruct (mkdir fs folder) as [fs1 | e1] eqn:Em; [|discriminate].
      intros H p [<- | Hp]; [|now apply (IH _ _ _ _ H)].
      destruct (mkdir_made _ _ _ Em) as [_ Hmade].
      unfold isdir. now rewrite (create_folders_keeps _ _ _ _ _ _ H _ _ Hmade).
Qed.



(** A working directory with nothing but the notebook. *)
Definition fresh_checkout : FileSystem :=
  fun q =>
    if String.eqb q "/home/user"%string then Some Directory
    else if String.eqb q "/home/user/overland_flow.ipynb"%string then Some RegularFile
    else None.



(** A study area with a slash puts the folders below a directory that is
    not there: the first [os.mkdir] raises and nothing is created. *)
Example setup_folders_missing_parent :
  snd (setup_folders "/home/user"%string "a/b"%string fresh_checkout)
  = Some FileNotFoundError /\
  snd (fst (setup_folders "/home/user"%string "a/b"%string fresh_checkout)) = [] /\
  fst (fst (setup_folders "/home/user"%string "a/b"%string fresh_checkout))
      "/home/user/config_files_a/b"%string = None.
Proof.
  repeat split.
Qed.

(** X9: running the cell a second time changes nothing: on the file system
    a successful run leaves, the cell raises nothing, prints nothing and
    returns the same file system. *)
Theorem setup_folders_idempotent
  (cwd study_area : String.string) (fs fs' : FileSystem) (out : list String.string) :
  setup_folders cwd study_area fs = (fs', out, None) ->
  setup_folders cwd study_area fs' = (fs', [], None).
Proof.
  unfold setup_folders. intro H.
  apply create_folders_present.
  apply (create_folders_made _ _ _ _ _ H).
Qed.

Lemma setup_folders_idempotent_witness :
  let fs' := fst (fst (setup_folders "/home/user"%string "calwood"%string fresh_checkout)) in
  setup_folders "/home/user"%string "calwood"%string fs' = (fs', [], None).
Proof.
  apply (setup_folders_idempotent "/home/user"%string "calwood"%string fresh_checkout _
           ["/home/user/config_files_calwood"; "/home/user/results_calwood";
            "/home/user/cache_calwood"]%string).
  reflexivity.
Defined.



(** * The video (Step 4)

    The cell lists the results folder, keeps the names that contain ".png",
    joins them to the folder, sorts the paths by modification time and
    reads them in that order, joining each to the folder once more.  A
    directory entry carries its name and modification time; [os.listdir]
    returns the entries in any order. *)

Fixpoint is_prefix (a s : String.string) : bool :=
  match a, s with
  | String.EmptyString, _ => true
  | String.String x a', String.String y s' => Ascii.eqb x y && is_prefix a' s'
  | String.String _ _, String.EmptyString => false
  end.

(** [sub in s] for strings. *)
Fixpoint contains (sub s : String.string) : bool :=
  is_prefix sub s ||
  match s with
  | String.EmptyString => false
  | String.String _ rest => contains sub rest
  end.

Record DirEntry : Type := {
  entry_name : String.string;
  mtime : Q
}.

(** The list comprehension: the joined path of every entry whose name
    contains ".png", with the modification time [os.path.getmtime] finds
    for it. *)
Definition img_files (folder : String.string) (listing : list DirEntry)
  : list (String.string * Q) :=
  map (fun e => (join folder (entry_name e), mtime e))
      (filter (fun e => contains ".png"%string (entry_name e)) listing).

(** [list.sort(key=...)] is a stable ascending sort: an element goes behind
    those whose key is not greater. *)
Fixpoint insert_by_mtime (x : String.string * Q) (l : list (String.string * Q))
  : list (String.string * Q) :=
  match l with
  | [] => [x]
  | y :: rest =>
      if Qle_bool (snd y) (snd x) then y :: insert_by_mtime x rest
      else x :: y :: rest
  end.

Definition sort_by_mtime (l : list (String.string * Q)) : list (String.string * Q) :=
  fold_left (fun acc x => insert_by_mtime x acc) l [].

(** The paths given to [imageio.imread], in order. *)
Definition video_frames (folder : String.string) (listing : list DirEntry)
  : list String.string :=
  map (fun f => join folder (fst f)) (sort_by_mtime (img_files folder listing)).

Definition older (a b : String.string * Q) : Prop := snd a <= snd b.

Lemma insert_by_mtime_perm x l : Permutation (insert_by_mtime x l) (x :: l).
Proof.
  induction l as [|y l IH]; simpl; [apply Permutation_refl|].
  destruct (Qle_bool (snd y) (snd x)); [|apply Permutation_refl].
  eapply Permutation_trans; [apply perm_skip; exact IH | apply perm_swap].
Qed.

Lemma insert_by_mtime_sorted x l :
  StronglySorted older l -> StronglySorted older (insert_by_mtime x l).
Proof.
  induction l as [|y l IH]; simpl; intro Hs.
  - constructor; constructor.
  - inversion Hs as [|? ? Hs' Hall]; subst.
    destruct (Qle_bool (snd y) (snd x)) eqn:E.
    + apply Qle_bool_iff in E. constructor; [now apply IH|].
      apply Forall_forall. intros z Hz.
      apply (Permutation_in _ (insert_by_mtime_perm x l)) in Hz.
      destruct Hz as [<- | Hz]; [exact E|].
      rewrite Forall_forall in Hall. now apply Hall.
    + assert (snd x < snd y) as Hlt.
      { apply Qnot_le_lt. intro H. apply Qle_bool_iff in H. congruence. }
      constructor; [exact Hs|]. constructor; [unfold older; lra|].
      eapply Forall_weaken; [|exact Hall]. unfold older. intros z Hz. lra.
Qed.

Lemma sort_by_mtime_spec l :
  Permutation (sort_by_mtime l) l /\ StronglySorted older (sort_by_mtime l).
Proof.
  unfold sort_by_mtime.
  assert (forall acc, StronglySorted older acc ->
            Permutation (fold_left (fun a x => insert_by_mtime x a) l acc) (acc ++ l) /\
            StronglySorted older (fold_left (fun a x => insert_by_mtime x a) l acc)) as H.
  { induction l as [|x l IH]; intros acc Hacc; simpl.
    - rewrite app_nil_r. split; [apply Permutation_refl | exact Hacc].
    - destruct (IH (insert_by_mtime x acc) (insert_by_mtime_sorted x acc Hacc))
        as [Hp Hs].
      split; [|exact Hs].
      eapply Permutation_trans; [exact Hp|].
      eapply Permutation_trans;
        [apply Permutation_app_tail; apply insert_by_mtime_perm|].
      simpl. apply Permutation_middle. }
  apply (H [] (SSorted_nil _)).
Qed.

Lemma join_absolute (a b : String.string) :
  starts_with_slash a = true -> starts_with_slash (join a b) = true.
Proof.
  intro Ha. unfold join. destruct (starts_with_slash b) eqn:Eb; [exact Eb|].
  destruct a as [|c a]; [discriminate|].
  destruct (String.eqb _ _ || ends_with_slash _); exact Ha.
Qed.

Lemma join_twice (a b : String.string) :
  starts_with_slash a = true -> join a (join a b) = join a b.
Proof.
  intro Ha. unfold join at 1. now rewrite (join_absolute a b Ha).
Qed.


Definition two_figures_and_a_video : list DirEntry :=
  [ {| entry_name := "overland_flow.mp4"%string; mtime := 50 |};
    {| entry_name := "flow_60.png"%string; mtime := 20 |};
    {| entry_name := "flow_30.png"%string; mtime := 10 |} ].


Example video_frames_absolute :
  video_frames "/home/user/results_calwood"%string two_figures_and_a_video
  = ["/home/user/results_calwood/flow_30.png";
     "/home/user/results_calwood/flow_60.png"]%string.
Proof.
  vm_compute. reflexivity.
Qed.

(** With a relative folder the second join prefixes the folder again. *)
Example video_frames_relative :
  video_frames "results_calwood"%string two_figures_and_a_video
  = ["results_calwood/results_calwood/flow_30.png";
     "results_calwood/results_calwood/flow_60.png"]%string.
Proof.
  vm_compute. reflexivity.
Qed.

Lemma Permutation_filter_compat {A : Type} (f : A -> bool) (l1 l2 : list A) :
  Permutation l1 l2 -> Permutation (filter f l1) (filter f l2).
Proof.
  induction 1 as [|x l1 l2 H IH|x y l|l1 l2 l3 H1 IH1 H2 IH2]; simpl.
  - constructor.
  - destruct (f x); [now constructor | exact IH].
  - destruct (f x), (f y); try apply Permutation_refl. apply perm_swap.
  - eapply Permutation_trans; eauto.
Qed.

(** Two lists in ascending order of modification time with the same
    elements are equal when equal times mean equal elements. *)
Lemma sorted_perm_unique (l m : list (String.string * Q)) :
  StronglySorted older l -> StronglySorted older m -> Permutation l m ->
  (forall a b, In a l -> In b l -> snd a == snd b -> a = b) ->
  l = m.
Proof.
  revert m. induction l as [|a l IH]; intros m Hl Hm Hp Hkey.
  - apply Permutation_nil in Hp. now subst.
  - destruct m as [|b m].
    { apply Permutation_sym, Permutation_nil in Hp. discriminate. }
    inversion Hl as [|? ? Hl' Hla]; subst.
    inversion Hm as [|? ? Hm' Hmb]; subst.
    rewrite Forall_forall in Hla, Hmb.
    assert (a = b) as ->.
    { assert (In a (b :: m)) as Ha
          by (apply (Permutation_in _ Hp); now left).
      assert (In b (a :: l)) as Hb
          by (apply (Permutation_in _ (Permutation_sym Hp)); now left).
      destruct Ha as [Ha | Ha]; [now subst|].
      destruct Hb as [Hb | Hb]; [now subst|].
      apply Hkey; [now left | now right |].
      specialize (Hla b Hb). specialize (Hmb a Ha). unfold older in *. lra. }
    f_equal. apply IH; auto.
    + now apply Permutation_cons_inv in Hp.
    + intros x y Hx Hy. apply Hkey; now right.
Qed.

(** X12: the order in which [os.listdir] returns the entries does not
    matter when no two different selected files have the same modification
    time: two listings with the same entries give the same frames in the
    same order. *)
Theorem video_frames_listing_order
  (folder : String.string) (listing1 listing2 : list DirEntry) :
  Permutation listing1 listing2 ->
  (forall a b, In a (img_files folder listing1) -> In b (img_files folder listing1) ->
               snd a == snd b -> a = b) ->
  video_frames folder listing1 = video_frames folder listing2.
Proof.
  intros Hp Hkey. unfold video_frames. f_equal.
  destruct (sort_by_mtime_spec (img_files folder listing1)) as [P1 S1].
  destruct (sort_by_mtime_spec (img_files folder listing2)) as [P2 S2].
  apply sorted_perm_unique; [exact S1 | exact S2 | |].
  - eapply Permutation_trans; [exact P1|].
    eapply Permutation_trans; [|apply Permutation_sym; exact P2].
    unfold img_files. apply Permutation_map. now apply Permutation_filter_compat.
  - intros a b Ha Hb. apply Hkey; apply (Permutation_in _ P1); assumption.
Qed.

Lemma video_frames_listing_order_witness :
  video_frames "/home/user/results_calwood"%string two_figures_and_a_video
  = video_frames "/home/user/results_calwood"%string (rev two_figures_and_a_video).
Proof.
  apply (video_frames_listing_order "/home/user/results_calwood"%string
           two_figures_and_a_video (rev two_figures_and_a_video)).
  - apply Permutation_rev.
  - intros a b Ha Hb Hab. vm_compute in Ha, Hb.
    destruct Ha as [<- | [<- | []]]; destruct Hb as [<- | [<- | []]];
      try reflexivity; vm_compute in Hab; discriminate.
Defined.

(** ** The figure files *)

(** ['{}'.format(n)] for an integer [n]. *)
Definition format_int (n : Z) : String.string :=
  DecimalString.NilZero.string_of_int (Z.to_int n).

(** ['flow_{}.png'.format(time_slice)] *)
Definition figure_name (time_slice : Z) : String.string :=
  String.append "flow_"%string (String.append (format_int time_slice) ".png"%string).

Lemma format_int_inj (a b : Z) : format_int a = format_int b -> a = b.
Proof.
  unfold format_int. intro H.
  assert (forall z, Z.to_int z <> Decimal.Pos Decimal.Nil /\
                    Z.to_int z <> Decimal.Neg Decimal.Nil) as Hnn.
  { intros [|q|q]; simpl; split; try discriminate;
      intro E; injection E as E; now apply DecimalPos.Unsigned.to_uint_nonnil in E. }
  assert (Some (Z.to_int a) = Some (Z.to_int b)) as E.
  { rewrite <- (DecimalString.NilZero.isi (Z.to_int a)) by apply Hnn.
    rewrite <- (DecimalString.NilZero.isi (Z.to_int b)) by apply Hnn.
    now rewrite H. }
  injection E as E.
  rewrite <- (DecimalZ.of_to a), <- (DecimalZ.of_to b). now rewrite E.
Qed.

Lemma string_length_append (a b : String.string) :
  String.length (String.append a b) = (String.length a + String.length b)%nat.
Proof.
  induction a as [|x a IH]; simpl; [reflexivity | now rewrite IH].
Qed.

Lemma append_cancel_r (a b c : String.string) :
  String.append a c = String.append b c -> a = b.
Proof.
  revert b. induction a as [|x a IH]; intros [|y b] H; simpl in H.
  - reflexivity.
  - apply (f_equal String.length) in H. simpl in H.
    rewrite string_length_append in H. lia.
  - apply (f_equal String.length) in H. simpl in H.
    rewrite string_length_append in H. lia.
  - injection H as -> H. f_equal. now apply IH.
Qed.

Lemma is_prefix_refl (a : String.string) : is_prefix a a = true.
Proof.
  induction a as [|x a IH]; simpl; [reflexivity|].
  now rewrite Ascii.eqb_refl, IH.
Qed.

Lemma contains_append (sub a : String.string) :
  contains sub (String.append a sub) = true.
Proof.
  induction a as [|x a IH]; simpl.
  - destruct sub; simpl; [reflexivity|].
    now rewrite Ascii.eqb_refl, is_prefix_refl.
  - rewrite IH. apply orb_true_r.
Qed.

Lemma figure_name_has_png (a : Z) :
  contains ".png"%string (figure_name a) = true.
Proof.
  unfold figure_name.
  replace (String.append "flow_" (String.append (format_int a) ".png"))%string
    with (String.append (String.append "flow_" (format_int a)) ".png")%string.
  - apply contains_append.
  - simpl. reflexivity.
Qed.

(** X13: the file name of a figure determines its slice, so the figures of
    different slices never overwrite one another, and every figure name
    contains ".png", so the video cell selects it. *)
Theorem figure_names_distinct_png (a b : Z) :
  (figure_name a = figure_name b -> a = b) /\
  contains ".png"%string (figure_name a) = true.
Proof.
  split.
  - unfold figure_name. intro H. apply append_cancel_l in H.
    apply append_cancel_r in H. now apply format_int_inj.
  - apply figure_name_has_png.
Qed.

Example figure_name_30 :
  figure_name 30 = "flow_30.png"%string /\ figure_name 1200 = "flow_1200.png"%string.
Proof.
  split; reflexivity.
Qed.

(** ** From the figures to the video *)

(** The directory entry left by [savefig] for a slice at a given time. *)
Definition figure_entry (save : Z * Q) : DirEntry :=
  {| entry_name := figure_name (fst save); mtime := snd save |}.

Lemma filter_all {A : Type} (f : A -> bool) (l : list A) :
  Forall (fun x => f x = true) l -> filter f l = l.
Proof.
  induction 1 as [|x l Hx _ IH]; simpl; [reflexivity|]. now rewrite Hx, IH.
Qed.

Lemma filter_none {A : Type} (f : A -> bool) (l : list A) :
  Forall (fun x => f x = false) l -> filter f l = [].
Proof.
  induction 1 as [|x l Hx _ IH]; simpl; [reflexivity|]. now rewrite Hx, IH.
Qed.

Lemma increasing_key_inj (l : list (String.string * Q)) :
  StronglySorted (fun a b => snd a < snd b) l ->
  forall a b, In a l -> In b l -> snd a == snd b -> a = b.
Proof.
  induction 1 as [|x l Hs IH Hx]; intros a b Ha Hb E; [destruct Ha|].
  rewrite Forall_forall in Hx.
  destruct Ha as [<- | Ha], Hb as [<- | Hb].
  - reflexivity.
  - specialize (Hx b Hb). lra.
  - specialize (Hx a Ha). lra.
  - now apply IH.
Qed.

Lemma increasing_older (l : list (String.string * Q)) :
  StronglySorted (fun a b => snd a < snd b) l -> StronglySorted older l.
Proof.
  induction 1 as [|x l Hs IH Hx]; constructor; [exact IH|].
  eapply Forall_weaken; [|exact Hx]. unfold older. intros y Hy. lra.
Qed.

Lemma map_increasing (folder : String.string) (saves : list (Z * Q)) :
  StronglySorted (fun a b => snd a < snd b) saves ->
  StronglySorted (fun a b : String.string * Q => snd a < snd b)
    (map (fun st => (join folder (figure_name (fst st)), snd st)) saves).
Proof.
  induction 1 as [|x l Hs IH Hx]; simpl; constructor; [exact IH|].
  apply Forall_forall. intros y Hy. apply in_map_iff in Hy.
  destruct Hy as (z & <- & Hz). simpl.
  rewrite Forall_forall in Hx. now apply Hx.
Qed.

(** X14: when the figures of a run were saved at increasing modification
    times into an absolute results folder that holds no other name with
    ".png", the video reads exactly the run's figures, in the order in which
    the loop saved them, whatever the order of the directory listing. *)
Theorem video_shows_figures_in_order
  (lib : Landlab) (s : Loop lib) (folder : String.string)
  (saves : list (Z * Q)) (others listing : list DirEntry) :
  starts_with_slash folder = true ->
  map fst saves = map fig_slice (figures s) ->
  StronglySorted (fun a b => snd a < snd b) saves ->
  Forall (fun e => contains ".png"%string (entry_name e) = false) others ->
  Permutation listing (map figure_entry saves ++ others) ->
  video_frames folder listing
  = map (fun f => join folder (figure_name (fig_slice f))) (figures s).
Proof.
  intros Habs Hslices Hinc Hothers Hperm.
  set (target := map (fun st => (join folder (figure_name (fst st)), snd st)) saves).
  assert (Permutation (img_files folder listing) target) as Himg.
  { unfold img_files, target.
    eapply Permutation_trans;
      [apply Permutation_map, Permutation_filter_compat; exact Hperm|].
    rewrite filter_app, (filter_none _ others Hothers), app_nil_r.
    rewrite filter_all.
    - rewrite map_map. apply Permutation_refl.
    - apply Forall_forall. intros e He. apply in_map_iff in He.
      destruct He as (st & <- & _). simpl.
      apply (figure_name_has_png (fst st)). }
  destruct (sort_by_mtime_spec (img_files folder listing)) as [P1 S1].
  pose proof (map_increasing folder saves Hinc) as Htarget. fold target in Htarget.
  assert (sort_by_mtime (img_files folder listing) = target) as E.
  { apply sorted_perm_unique; [exact S1 | now apply increasing_older | |].
    - eapply Permutation_trans; eassumption.
    - intros a b Ha Hb.
      apply (increasing_key_inj target Htarget);
        apply (Permutation_in _ (Permutation_trans P1 Himg)); assumption. }
  unfold video_frames. rewrite E. unfold target. rewrite map_map. simpl.
  rewrite <- (map_map fig_slice (fun z => join folder (figure_name z))), <- Hslices.
  rewrite map_map. apply map_ext. intros st. now apply join_twice.
Qed.

Lemma video_shows_figures_in_order_witness :
  video_frames "/home/user/results_calwood"%string
    (rev (map figure_entry [(30%Z, 1); (60%Z, 2); (90%Z, 3); (120%Z, 4)]
          ++ [ {| entry_name := "overland_flow.mp4"%string; mtime := 9 |} ]))
  = map (fun f => join "/home/user/results_calwood"%string (figure_name (fig_slice f)))
        (figures (state_of (run (steady 4 7) short_run 5 steady0))).
Proof.
  apply (video_shows_figures_in_order (steady 4 7) _
           "/home/user/results_calwood"%string
           [(30%Z, 1); (60%Z, 2); (90%Z, 3); (120%Z, 4)]
           [ {| entry_name := "overland_flow.mp4"%string; mtime := 9 |} ]).
  - reflexivity.
  - vm_compute. reflexivity.
  - repeat constructor.
  - repeat constructor.
  - apply Permutation_sym, Permutation_rev.
Defined.
